(** * comms_champion: field traversal, bitmask options, field wrappers and
      message encoding

    A shallow embedding of

    - [comms/util/Tuple.h]                      (module [Tuple]),
    - [comms/field/details/BitmaskValueBase.h]  (module [Bitmask]),
    - [field_wrapper/BitfieldWrapper.h] and
      [field_wrapper/UnknownValueWrapper.h]     (module [Wrapper]),
    - [comms_champion/MessageBase.h]            (module [Message]),
    - [lib/comms_champion/src/Plugin.cpp]       (module [Plugin]),

    followed by the properties proved about them. *)

From Stdlib Require Import List Arith Lia Bool Permutation.
From Stdlib Require Import Strings.Byte.
Import ListNotations.

Set Implicit Arguments.

(* ===================================================================== *)
(** ** C++ scalar types *)
(* ===================================================================== *)

(** An integral C++ type, as far as the templates below look at it:
    [sizeof] and [std::is_signed]. *)
Record CType : Type := mkCType {
  sizeof : nat;
  is_signed : bool
}.

Definition uint8_t : CType := mkCType 1 false.
Definition uint32_t : CType := mkCType 4 false.
Definition uint64_t : CType := mkCType 8 false.
Definition int64_t : CType := mkCType 8 true.
(** [long long unsigned] on the ABIs the project builds for (LP64, LLP64). *)
Definition long_long_unsigned : CType := mkCType 8 false.
(** A 128 bit extension type, used for examples of over-wide fields. *)
Definition uint128_t : CType := mkCType 16 false.

(* ===================================================================== *)
(** ** comms/util/Tuple.h *)
(* ===================================================================== *)

Module Tuple.
Section WithUniverse.

(** Codes of the element types and their interpretation: a
    [std::tuple<Ts...>] is a value of [tuple ts] for the list [ts] of the
    codes of [Ts...]. *)
Variable U : Type.
Variable El : U -> Type.

Inductive tuple : list U -> Type :=
| tnil : tuple []
| tcons : forall (u : U) (us : list U), El u -> tuple us -> tuple (u :: us).

Arguments tcons u {us} _ _.

(** An element together with its type, as a callback sees it. *)
Definition elem : Type := { u : U & El u }.

(** [std::tuple_size<Tuple>::value] *)
Definition tuple_size (ts : list U) (_ : tuple ts) : nat := length ts.

Fixpoint to_list (ts : list U) (t : tuple ts) : list elem :=
  match t with
  | tnil => []
  | tcons u x r => existT El u x :: to_list r
  end.

(** [std::get<Idx>(tuple)], read only.  [None] stands for the ill-formed
    program that an out of range [Idx] is. *)
Fixpoint get (Idx : nat) (ts : list U) (t : tuple ts) : option elem :=
  match t with
  | tnil => None
  | tcons u x r =>
      match Idx with
      | 0 => Some (existT El u x)
      | S i => get i r
      end
  end.

Section WithFunctor.

(** The state the functor works on: its own members and whatever it
    refers to. *)
Variable St : Type.

(** A functor with a call operator for every element type.  It receives
    the element by reference, so it gives back the element as it leaves
    it, next to the new state. *)
Definition TFunc : Type := forall u : U, El u -> St -> El u * St.

(** The call [func(std::get<Idx>(tuple))]: the element at [Idx] is handed
    to [func] by reference.  [None] when [Idx] is out of range (the
    program is ill-formed). *)
Fixpoint call_at (Idx : nat) (func : TFunc) (ts : list U) (t : tuple ts)
         (s : St) : option (tuple ts * St) :=
  match t in tuple ts0 return option (tuple ts0 * St) with
  | tnil => None
  | tcons u x r =>
      match Idx with
      | 0 => let '(x', s') := func u x s in Some (tcons u x' r, s')
      | S i =>
          match call_at i func r s with
          | Some (r', s') => Some (tcons u x r', s')
          | None => None
          end
      end
  end.

(** [details::TupleForEachHelper<TRem>::exec(tuple, func)] *)
Fixpoint TupleForEachHelper_exec (TRem : nat) (func : TFunc)
         (ts : list U) (t : tuple ts) (s : St) : option (tuple ts * St) :=
  match TRem with
  | 0 => Some (t, s)
  | S TRem' =>
      let TupleSize := tuple_size t in
      if TRem <=? TupleSize then
        let Idx := TupleSize - TRem in
        match call_at Idx func t s with
        | Some (t', s') => TupleForEachHelper_exec TRem' func t' s'
        | None => None
        end
      else None (* static_assert(TRem <= TupleSize, "Incorrect TRem") *)
  end.

(** [tupleForEach(tuple, func)] *)
Definition tupleForEach (func : TFunc) (ts : list U) (t : tuple ts)
           (s : St) : option (tuple ts * St) :=
  let TupleSize := tuple_size t in
  TupleForEachHelper_exec TupleSize func t s.

(** The specification's reading of [forEach]: ordinary iteration over the
    elements, first to last. *)
Fixpoint forEach_spec (func : TFunc) (ts : list U) (t : tuple ts)
         (s : St) : tuple ts * St :=
  match t in tuple ts0 return tuple ts0 * St with
  | tnil => (tnil, s)
  | tcons u x r =>
      let '(x', s1) := func u x s in
      let '(r', s2) := forEach_spec func r s1 in
      (tcons u x' r', s2)
  end.

(** The same iteration, begun at the element of index [k]: the elements
    before it are left alone. *)
Fixpoint forEach_from (k : nat) (func : TFunc) (ts : list U)
         (t : tuple ts) (s : St) : tuple ts * St :=
  match k with
  | 0 => forEach_spec func t s
  | S k' =>
      match t in tuple ts0 return tuple ts0 * St with
      | tnil => (tnil, s)
      | tcons u x r =>
          let '(r', s') := forEach_from k' func r s in
          (tcons u x r', s')
      end
  end.

End WithFunctor.

(** A functor that behaves as [func] and also appends every element it is
    called with, as it finds it, to a log of calls. *)
Definition logging (St : Type) (func : TFunc St) : TFunc (St * list elem) :=
  fun u x st =>
    let '(x', s') := func u x (fst st) in
    (x', (s', snd st ++ [existT El u x])).

Section WithIndexedFunctor.
Variable St : Type.

(** A functor called with an element and, as second argument, its index. *)
Definition TFuncIdx : Type := forall u : U, El u -> nat -> St -> El u * St.

(** [details::TupleForEachWithIdxHelper<TRem>::exec(tuple, func)]; the call
    is [func(std::get<Idx>(tuple), Idx)]. *)
Fixpoint TupleForEachWithIdxHelper_exec (TRem : nat) (func : TFuncIdx)
         (ts : list U) (t : tuple ts) (s : St) : option (tuple ts * St) :=
  match TRem with
  | 0 => Some (t, s)
  | S TRem' =>
      let TupleSize := tuple_size t in
      if TRem <=? TupleSize then
        let Idx := TupleSize - TRem in
        match call_at Idx (fun u x => func u x Idx) t s with
        | Some (t', s') => TupleForEachWithIdxHelper_exec TRem' func t' s'
        | None => None
        end
      else None (* static_assert(TRem <= TupleSize, "Incorrect TRem") *)
  end.

(** [tupleForEachWithIdx(tuple, func)] *)
Definition tupleForEachWithIdx (func : TFuncIdx) (ts : list U)
           (t : tuple ts) (s : St) : option (tuple ts * St) :=
  let TupleSize := tuple_size t in
  TupleForEachWithIdxHelper_exec TupleSize func t s.

(** A functor whose call operator has the index as template parameter:
    [func.template operator()<Idx>(element)]. *)
Definition TFuncTemplateIdx : Type :=
  forall (Idx : nat) (u : U), El u -> St -> El u * St.

(** [details::TupleForEachWithTemplateParamIdxHelper<TRem>::exec(tuple,
    func)] *)
Fixpoint TupleForEachWithTemplateParamIdxHelper_exec (TRem : nat)
         (func : TFuncTemplateIdx) (ts : list U) (t : tuple ts) (s : St)
  : option (tuple ts * St) :=
  match TRem with
  | 0 => Some (t, s)
  | S TRem' =>
      let TupleSize := tuple_size t in
      if TRem <=? TupleSize then
        let Idx := TupleSize - TRem in
        match call_at Idx (func Idx) t s with
        | Some (t', s') =>
            TupleForEachWithTemplateParamIdxHelper_exec TRem' func t' s'
        | None => None
        end
      else None (* static_assert(TRem <= TupleSize, "Incorrect TRem") *)
  end.

(** [tupleForEachWithTemplateParamIdx(tuple, func)] *)
Definition tupleForEachWithTemplateParamIdx (func : TFuncTemplateIdx)
           (ts : list U) (t : tuple ts) (s : St) : option (tuple ts * St) :=
  let TupleSize := tuple_size t in
  TupleForEachWithTemplateParamIdxHelper_exec TupleSize func t s.

(** Plain iteration, first to last, that hands every element to the
    functor together with its position, counted from [i]. *)
Fixpoint forEachWithIdx_spec (i : nat) (func : TFuncIdx) (ts : list U)
         (t : tuple ts) (s : St) : tuple ts * St :=
  match t in tuple ts0 return tuple ts0 * St with
  | tnil => (tnil, s)
  | tcons u x r =>
      let '(x', s1) := func u x i s in
      let '(r', s2) := forEachWithIdx_spec (S i) func r s1 in
      (tcons u x' r', s2)
  end.

(** The same iteration begun at the element of index [k]; [i] is the
    position of the first element of the tuple. *)
Fixpoint forEachWithIdx_from (k i : nat) (func : TFuncIdx) (ts : list U)
         (t : tuple ts) (s : St) : tuple ts * St :=
  match k with
  | 0 => forEachWithIdx_spec i func t s
  | S k' =>
      match t in tuple ts0 return tuple ts0 * St with
      | tnil => (tnil, s)
      | tcons u x r =>
          let '(r', s') := forEachWithIdx_from k' (S i) func r s in
          (tcons u x r', s')
      end
  end.

End WithIndexedFunctor.

(** A functor that behaves as [func] and also appends every index and
    element it is called with to a log of calls. *)
Definition logging_idx (St : Type) (func : TFuncIdx St)
  : TFuncIdx (St * list (nat * elem)) :=
  fun u x Idx st =>
    let '(x', s') := func u x Idx (fst st) in
    (x', (s', snd st ++ [(Idx, existT El u x)])).

Section WithAccumulator.
Variable St : Type.

(** Codes of the types a value can have, and their interpretation.  The
    value type of [tupleAccumulate] and of every level of the helper is
    deduced from the argument it is called with. *)
Variable VU : Type.
Variable Val : VU -> Type.

(** The implicit conversion of a [return] statement, from the type of the
    expression to the return type of the function. *)
Variable convert : forall from to : VU, Val from -> Val to.

Arguments convert : clear implicits.

(** A functor called with the value accumulated so far and an element.
    The type of its result depends, as overloading and templates make it,
    on the types of the two arguments; it gives the next value, and leaves
    the element and its own state as it likes. *)
Record TAccFunc : Type := mkAccFunc {
  result_type : VU -> U -> VU;
  call : forall (TValue : VU) (u : U),
      Val TValue -> El u -> St -> (Val (result_type TValue u) * El u) * St
}.

Arguments call : clear implicits.

(** The call [func(value, std::get<Idx>(tuple))]; the result comes with
    its type. *)
Fixpoint accumulate_at (Idx : nat) (func : TAccFunc) (ts : list U)
         (t : tuple ts) (TValue : VU) (value : Val TValue) (s : St)
  : option { R : VU & (Val R * (tuple ts * St))%type } :=
  match t in tuple ts0
        return option { R : VU & (Val R * (tuple ts0 * St))%type } with
  | tnil => None
  | tcons u x r =>
      match Idx with
      | 0 =>
          let '((value', x'), s') := call func TValue u value x s in
          Some (existT _ (result_type func TValue u)
                       (value', (tcons u x' r, s')))
      | S i =>
          match accumulate_at i func r value s with
          | Some (existT _ R (value', (r', s'))) =>
              Some (existT _ R (value', (tcons u x r', s')))
          | None => None
          end
      end
  end.

Arguments accumulate_at Idx func [ts] t TValue value s.

(** [details::TupleAccumulateHelper<TRem>::exec(tuple, value, func)] with
    [TValue] deduced from [value]: the next level is entered with the
    result of the call, so with the type of that result as its [TValue],
    and what it returns is converted to the [TValue] of this level.  The
    result is the value returned, with the tuple and the state of the
    functor as the calls leave them. *)
Fixpoint TupleAccumulateHelper_exec (TRem : nat) (func : TAccFunc)
         (ts : list U) (t : tuple ts) (TValue : VU) (value : Val TValue)
         (s : St) : option (Val TValue * (tuple ts * St)) :=
  match TRem with
  | 0 => Some (value, (t, s))
  | S TRem' =>
      let TupleSize := tuple_size t in
      if TRem <=? TupleSize then
        let Idx := TupleSize - TRem in
        match accumulate_at Idx func t TValue value s with
        | Some (existT _ R (value', (t', s'))) =>
            match TupleAccumulateHelper_exec TRem' func t' value' s' with
            | Some (result, (t'', s'')) =>
                Some (convert R TValue result, (t'', s''))
            | None => None
            end
        | None => None
        end
      else None (* static_assert(TRem <= TupleSize, "Incorrect TRem") *)
  end.

Arguments TupleAccumulateHelper_exec TRem func [ts] t TValue value s.

(** [tupleAccumulate(tuple, value, func)] with [TValue] deduced from
    [value] *)
Definition tupleAccumulate (func : TAccFunc) (ts : list U) (t : tuple ts)
           (TValue : VU) (value : Val TValue) (s : St)
  : option (Val TValue * (tuple ts * St)) :=
  let TupleSize := tuple_size t in
  TupleAccumulateHelper_exec TupleSize func t TValue value s.

Arguments tupleAccumulate func [ts] t TValue value s.

(** A fold over the elements, first to last, in which every step goes on
    in the type of the result of its call, and the value that comes back
    from the rest of the tuple is converted to the type the step was
    entered with. *)
Fixpoint accumulate_spec (func : TAccFunc) (ts : list U) (t : tuple ts)
  : forall TValue : VU, Val TValue -> St -> Val TValue * (tuple ts * St) :=
  match t in tuple ts0
        return forall TValue : VU,
                 Val TValue -> St -> Val TValue * (tuple ts0 * St) with
  | tnil => fun TValue value s => (value, (tnil, s))
  | tcons u x r => fun TValue value s =>
      let '((value1, x'), s1) := call func TValue u value x s in
      let '(value2, (r', s2)) := accumulate_spec func r value1 s1 in
      (convert (result_type func TValue u) TValue value2,
       (tcons u x' r', s2))
  end.

Arguments accumulate_spec func [ts] t TValue _ _.

(** The same fold begun at the element of index [k]: the elements before
    it are left alone. *)
Fixpoint accumulate_from (k : nat) (func : TAccFunc) (ts : list U)
         (t : tuple ts) (TValue : VU) (value : Val TValue) (s : St)
  : Val TValue * (tuple ts * St) :=
  match k with
  | 0 => accumulate_spec func t TValue value s
  | S k' =>
      match t in tuple ts0 return Val TValue * (tuple ts0 * St) with
      | tnil => (value, (tnil, s))
      | tcons u x r =>
          let '(value', (r', s')) := accumulate_from k' func r value s in
          (value', (tcons u x r', s'))
      end
  end.

Arguments accumulate_from k func [ts] t TValue value s.

(** A functor whose result has the type of the value it is given. *)
Definition same_type_acc
           (g : forall (TValue : VU) (u : U),
               Val TValue -> El u -> St -> (Val TValue * El u) * St)
  : TAccFunc :=
  mkAccFunc (fun TValue _ => TValue) g.

(** A functor without state, with a result of the type of the value it is
    given, that only computes the next value. *)
Definition pure_acc (f : forall TValue : VU, Val TValue -> elem -> Val TValue)
  : TAccFunc :=
  same_type_acc
    (fun TValue u value x s => ((f TValue value (existT El u x), x), s)).

(** A functor without state whose result always has the type [R]. *)
Definition widening_acc (R : VU)
           (f : forall TValue : VU, Val TValue -> elem -> Val R)
  : TAccFunc :=
  mkAccFunc (fun _ _ => R)
            (fun TValue u value x s =>
               ((f TValue value (existT El u x), x), s)).

End WithAccumulator.

(** [std::tuple_cat(a, b)] *)
Fixpoint tuple_cat (ts1 ts2 : list U) (a : tuple ts1) (b : tuple ts2)
  : tuple (ts1 ++ ts2) :=
  match a in tuple ts0 return tuple (ts0 ++ ts2) with
  | tnil => b
  | tcons u x r => tcons u x (tuple_cat r b)
  end.

Section TypeLevel.

(** [std::is_same<T1, T2>::value] *)
Variable is_same : U -> U -> bool.

(** A type given as template argument: an instance of [std::tuple], or
    another type. *)
Inductive TypeArg : Type :=
| std_tuple (TArgs : list U)
| other_type (T : U).

(** [IsTuple<TType>::Value] *)
Definition IsTuple (TType : TypeArg) : bool :=
  match TType with
  | std_tuple _ => true
  | other_type _ => false
  end.

(** [IsInTuple<TType, std::tuple<TArgs...> >::Value] *)
Fixpoint IsInTuple_Value (TType : U) (TArgs : list U) : bool :=
  match TArgs with
  | [] => false
  | TFirst :: TRest => is_same TType TFirst || IsInTuple_Value TType TRest
  end.

(** [IsInTuple<TType, TTuple>::Value]; [None] when the primary template is
    chosen and its [static_assert] stops the compilation. *)
Definition IsInTuple (TType : U) (TTuple : TypeArg) : option bool :=
  match TTuple with
  | std_tuple TArgs => Some (IsInTuple_Value TType TArgs)
  | other_type _ => None
  end.

(** [TupleIsUnique<std::tuple<TArgs...> >::Value] *)
Fixpoint TupleIsUnique_Value (TArgs : list U) : bool :=
  match TArgs with
  | [] => true
  | TFirst :: TRest =>
      negb (IsInTuple_Value TFirst TRest) && TupleIsUnique_Value TRest
  end.

(** [TupleIsUnique<TTuple>::Value] *)
Definition TupleIsUnique (TTuple : TypeArg) : option bool :=
  match TTuple with
  | std_tuple TArgs => Some (TupleIsUnique_Value TArgs)
  | other_type _ => None
  end.

(** [TupleCat<TFirst, TSecond>::Type] *)
Definition TupleCat (TFirst TSecond : TypeArg) : option TypeArg :=
  match TFirst, TSecond with
  | std_tuple TArgs1, std_tuple TArgs2 => Some (std_tuple (TArgs1 ++ TArgs2))
  | _, _ => None
  end.

End TypeLevel.

End WithUniverse.

Arguments tnil {U El}.
Arguments tcons {U El} u {us} _ _.

(** *** An example: a [std::tuple<unsigned, bool, unsigned>] *)

Inductive ExampleType : Type := t_unsigned | t_bool.

Definition ExampleEl (u : ExampleType) : Type :=
  match u with t_unsigned => nat | t_bool => bool end.

Definition example_tuple
  : tuple ExampleEl [t_unsigned; t_bool; t_unsigned] :=
  tcons t_unsigned 3 (tcons t_bool true (tcons t_unsigned 5 tnil)).

(** A functor that notes a number for every element it sees and then
    changes the element. *)
Definition example_func : TFunc ExampleEl (list nat) :=
  fun u =>
    match u return ExampleEl u -> list nat -> ExampleEl u * list nat with
    | t_unsigned => fun x seen => (x + 1, seen ++ [x])
    | t_bool => fun b seen => (negb b, seen ++ [if b then 1 else 0])
    end.

(** [std::is_same] for the example types. *)
Definition example_is_same (a b : ExampleType) : bool :=
  match a, b with
  | t_unsigned, t_unsigned | t_bool, t_bool => true
  | _, _ => false
  end.

(** A functor that notes index and number for every element. *)
Definition example_func_idx : TFuncIdx ExampleEl (list (nat * nat)) :=
  fun u =>
    match u return ExampleEl u -> nat -> list (nat * nat)
                   -> ExampleEl u * list (nat * nat) with
    | t_unsigned => fun x Idx seen => (x, seen ++ [(Idx, x)])
    | t_bool => fun b Idx seen => (b, seen ++ [(Idx, if b then 1 else 0)])
    end.

(** Two value types, [std::uint8_t] and [int], both held as numbers; a
    number that comes to be an [std::uint8_t] is cut to its low 8 bits. *)
Inductive ExampleValueType : Type := v_uint8_t | v_int.

Definition ExampleVal (V : ExampleValueType) : Type := nat.

Definition example_convert (from to : ExampleValueType)
  : ExampleVal from -> ExampleVal to :=
  match from, to with
  | v_int, v_uint8_t => fun v => v mod 256
  | _, _ => fun v => v
  end.

(** The number an element stands for. *)
Definition example_number (e : elem ExampleEl) : nat :=
  match e with
  | existT _ t_unsigned x => x
  | existT _ t_bool b => if b then 1 else 0
  end.

(** [value + element], computed in the type of the value. *)
Definition example_add (V : ExampleValueType) (value : ExampleVal V)
           (e : elem ExampleEl) : ExampleVal V :=
  match V with
  | v_uint8_t => (value + example_number e) mod 256
  | v_int => value + example_number e
  end.

(** [value + element], computed as [int] whatever the type of the
    value. *)
Definition example_add_int (V : ExampleValueType) (value : ExampleVal V)
           (e : elem ExampleEl) : ExampleVal v_int :=
  value + example_number e.

(** The larger of value and element, as [int] whatever the type of the
    value. *)
Definition example_max_int (V : ExampleValueType) (value : ExampleVal V)
           (e : elem ExampleEl) : ExampleVal v_int :=
  Nat.max value (example_number e).

Arguments example_convert : clear implicits.
Arguments example_add : clear implicits.
Arguments example_add_int : clear implicits.
Arguments example_max_int : clear implicits.

(** A [std::tuple<unsigned, unsigned>] and two [std::tuple<unsigned>]. *)
Definition example_tuple_a : tuple ExampleEl [t_unsigned; t_unsigned] :=
  tcons t_unsigned 100 (tcons t_unsigned 200 tnil).

Definition example_tuple_b : tuple ExampleEl [t_unsigned] :=
  tcons t_unsigned 300 tnil.

Definition example_tuple_c : tuple ExampleEl [t_unsigned] :=
  tcons t_unsigned 100 tnil.

End Tuple.

(* ===================================================================== *)
(** ** comms/field/details/BitmaskValueBase.h *)
(* ===================================================================== *)

Module Bitmask.
Section WithTypes.

(** The functor types an initialiser or validator option can name. *)
Variable Initialiser Validator : Type.

(** [comms::util::SizeToType<TSize, TSigned>::Type]; its header
    (comms/util/SizeToType.h) is not among the sources, so the table is a
    parameter. *)
Variable SizeToType : nat -> bool -> CType.

(** The options of [comms::option] that [BitmaskValueBase] is specialised
    for. *)
Inductive TOption : Type :=
| option_FixedLength (TLen : nat)
| option_BitIndexingStartsFromMsb
| option_DefaultValueInitialiser (T : Initialiser)
| option_ContentsValidator (T : Validator).

(** Which specialisation an option selects. *)
Inductive Kind : Type :=
  KFixedLength | KBitIndexing | KInitialiser | KValidator.

Definition kind (o : TOption) : Kind :=
  match o with
  | option_FixedLength _ => KFixedLength
  | option_BitIndexingStartsFromMsb => KBitIndexing
  | option_DefaultValueInitialiser _ => KInitialiser
  | option_ContentsValidator _ => KValidator
  end.

(** The members a [BitmaskValueBase<TField, TOptions...>] shows to the
    class derived from it.  The two typedefs that exist only in some
    specialisations are optional. *)
Record Members : Type := mkMembers {
  ValueType : CType;
  SerialisedLen : nat;
  BitZeroIsMsb : bool;
  HasCustomInitialiser : bool;
  HasCustomValidator : bool;
  DefaultValueInitialiser : option Initialiser;
  ContentsValidator : option Validator
}.

(** [BitmaskValueBase<TField, TOptions...>]: the specialisation for the
    first option derives from the class for the remaining ones and hides
    the members it declares again. *)
Fixpoint BitmaskValueBase (TOptions : list TOption) : Members :=
  match TOptions with
  | [] =>
      {| ValueType := long_long_unsigned;
         SerialisedLen := sizeof long_long_unsigned;
         BitZeroIsMsb := false;
         HasCustomInitialiser := false;
         HasCustomValidator := false;
         DefaultValueInitialiser := None;
         ContentsValidator := None |}
  | option_FixedLength TLen :: TOptions' =>
      let Base := BitmaskValueBase TOptions' in
      {| ValueType := SizeToType TLen false;
         SerialisedLen := TLen;
         BitZeroIsMsb := BitZeroIsMsb Base;
         HasCustomInitialiser := HasCustomInitialiser Base;
         HasCustomValidator := HasCustomValidator Base;
         DefaultValueInitialiser := DefaultValueInitialiser Base;
         ContentsValidator := ContentsValidator Base |}
  | option_BitIndexingStartsFromMsb :: TOptions' =>
      let Base := BitmaskValueBase TOptions' in
      {| ValueType := ValueType Base;
         SerialisedLen := SerialisedLen Base;
         BitZeroIsMsb := true;
         HasCustomInitialiser := HasCustomInitialiser Base;
         HasCustomValidator := HasCustomValidator Base;
         DefaultValueInitialiser := DefaultValueInitialiser Base;
         ContentsValidator := ContentsValidator Base |}
  | option_DefaultValueInitialiser T :: TOptions' =>
      let Base := BitmaskValueBase TOptions' in
      {| ValueType := ValueType Base;
         SerialisedLen := SerialisedLen Base;
         BitZeroIsMsb := BitZeroIsMsb Base;
         HasCustomInitialiser := true;
         HasCustomValidator := HasCustomValidator Base;
         DefaultValueInitialiser := Some T;
         ContentsValidator := ContentsValidator Base |}
  | option_ContentsValidator T :: TOptions' =>
      let Base := BitmaskValueBase TOptions' in
      {| ValueType := ValueType Base;
         SerialisedLen := SerialisedLen Base;
         BitZeroIsMsb := BitZeroIsMsb Base;
         HasCustomInitialiser := HasCustomInitialiser Base;
         HasCustomValidator := true;
         DefaultValueInitialiser := DefaultValueInitialiser Base;
         ContentsValidator := Some T |}
  end.

(** An option set: no two options of a list select the same
    specialisation. *)
Definition option_set (TOptions : list TOption) : Prop :=
  NoDup (map kind TOptions).

(** The length given by the first [FixedLength] option of a list. *)
Fixpoint first_FixedLength (TOptions : list TOption) : option nat :=
  match TOptions with
  | [] => None
  | option_FixedLength TLen :: _ => Some TLen
  | _ :: TOptions' => first_FixedLength TOptions'
  end.

(** The functor type given by the first initialiser option of a list. *)
Fixpoint first_Initialiser (TOptions : list TOption) : option Initialiser :=
  match TOptions with
  | [] => None
  | option_DefaultValueInitialiser T :: _ => Some T
  | _ :: TOptions' => first_Initialiser TOptions'
  end.

(** The functor type given by the first validator option of a list. *)
Fixpoint first_Validator (TOptions : list TOption) : option Validator :=
  match TOptions with
  | [] => None
  | option_ContentsValidator T :: _ => Some T
  | _ :: TOptions' => first_Validator TOptions'
  end.

End WithTypes.

Arguments option_FixedLength {Initialiser Validator} TLen.
Arguments option_BitIndexingStartsFromMsb {Initialiser Validator}.
Arguments option_DefaultValueInitialiser {Initialiser Validator} T.
Arguments option_ContentsValidator {Initialiser Validator} T.

(** A stand-in for [SizeToType] in examples: the unsigned type of the
    smallest standard width that holds [TSize] bytes. *)
Definition example_SizeToType (TSize : nat) (TSigned : bool) : CType :=
  mkCType (if TSize <=? 1 then 1 else if TSize <=? 2 then 2
           else if TSize <=? 4 then 4 else 8) TSigned.

End Bitmask.

(* ===================================================================== *)
(** ** Results, exceptions and [std::vector<std::uint8_t>] *)
(* ===================================================================== *)

(** Modelled from the spec: [comms::ErrorStatus] (comms/ErrorStatus.h is not
    among the sources); the outcomes are those of the specification's error
    taxonomy. *)
Inductive ErrorStatus : Type :=
| Success
| NotEnoughData
| ProtocolError
| BufferOverflow
| InvalidMsgData.

Definition ErrorStatus_eqb (a b : ErrorStatus) : bool :=
  match a, b with
  | Success, Success | NotEnoughData, NotEnoughData
  | ProtocolError, ProtocolError | BufferOverflow, BufferOverflow
  | InvalidMsgData, InvalidMsgData => true
  | _, _ => false
  end.

(** What can be thrown. *)
Inductive Exn : Type :=
| bad_alloc
| length_error
| other_exception (what : nat).

(** How a call ends: it returns, it throws, or it fails an [assert] and the
    process is aborted. *)
Inductive Outcome (A : Type) : Type :=
| Ret (a : A)
| Throw (e : Exn)
| Abort.

Arguments Ret {A} a.
Arguments Throw {A} e.
Arguments Abort {A}.

(** What the code depends on and cannot see: the largest vector, whether an
    allocation of [n] bytes succeeds, and whether [assert] is compiled out. *)
Record Env : Type := mkEnv {
  max_size : nat;
  alloc_ok : nat -> bool;
  NDEBUG : bool
}.

Definition DataSeq : Type := list byte.

Module Vec.
Section WithEnv.
Variable env : Env.

(** [v.resize(n)]: new elements are value-initialised; growing allocates. *)
Definition resize (v : DataSeq) (n : nat) : Outcome DataSeq :=
  if n <=? length v then Ret (firstn n v)
  else if max_size env <? n then Throw length_error
  else if alloc_ok env n then Ret (v ++ repeat x00 (n - length v))
  else Throw bad_alloc.

(** [v.reserve(n)] on an empty vector; the result is the capacity. *)
Definition reserve (n : nat) : Outcome nat :=
  if max_size env <? n then Throw length_error
  else if n =? 0 then Ret 0
  else if alloc_ok env n then Ret n
  else Throw bad_alloc.

(** The bytes [bs] arriving through [std::back_inserter(v)] for a vector of
    capacity [cap]; going beyond the capacity allocates. *)
Definition push_back_all (cap : nat) (v : DataSeq) (bs : list byte)
  : Outcome DataSeq :=
  if length v + length bs <=? cap then Ret (v ++ bs)
  else if max_size env <? length v + length bs then Throw length_error
  else if alloc_ok env (length v + length bs) then Ret (v ++ bs)
  else Throw bad_alloc.

(** The bytes [bs] arriving one after the other through
    [std::back_inserter(v)] on a vector that has had no [reserve].  A
    [push_back] that finds the vector full allocates, and when and how
    much is the implementation's business: [alloc_ok env n] stands here
    for whether the [push_back] that takes the vector to [n] bytes gets
    what it needs. *)
Fixpoint push_back_each (v : DataSeq) (bs : list byte) : Outcome DataSeq :=
  match bs with
  | [] => Ret v
  | b :: bs' =>
      if max_size env <? S (length v) then Throw length_error
      else if alloc_ok env (S (length v)) then push_back_each (v ++ [b]) bs'
      else Throw bad_alloc
  end.

(** The bytes [bs] written through a pointer that starts at [&v[off]].
    Writing beyond the end of [v] is undefined and is not modelled: the
    splice only says what the first [off + length bs] bytes are. *)
Definition store (v : DataSeq) (off : nat) (bs : list byte) : DataSeq :=
  firstn off v ++ bs ++ skipn (off + length bs) v.

End WithEnv.
End Vec.

(* ===================================================================== *)
(** ** A state and exception monad for member functions *)
(* ===================================================================== *)

Module Monad.

(** A member function on an object of state [St]: the object is left in
    some state whichever way the call ends. *)
Definition M (St A : Type) : Type := St -> Outcome A * St.

Definition ret {St A : Type} (a : A) : M St A := fun s => (Ret a, s).

Definition bind {St A B : Type} (c : M St A) (k : A -> M St B) : M St B :=
  fun s =>
    match c s with
    | (Ret a, s') => k a s'
    | (Throw e, s') => (Throw e, s')
    | (Abort, s') => (Abort, s')
    end.

Definition get {St : Type} : M St St := fun s => (Ret s, s).

Definition put {St : Type} (s : St) : M St unit := fun _ => (Ret tt, s).

Definition throw {St A : Type} (e : Exn) : M St A := fun s => (Throw e, s).

Definition abort {St A : Type} : M St A := fun s => (Abort, s).

(** A call that does not touch the object. *)
Definition lift {St A : Type} (o : Outcome A) : M St A := fun s => (o, s).

(** [try { c } catch (...) { h }]: an abort is not an exception. *)
Definition try_catch {St A : Type} (c : M St A) (h : M St A) : M St A :=
  fun s =>
    match c s with
    | (Throw _, s') => h s'
    | r => r
    end.

(** [assert(cond)] *)
Definition assert {St : Type} (env : Env) (cond : bool) : M St unit :=
  if NDEBUG env || cond then ret tt else abort.

Declare Scope monad_scope.
Delimit Scope monad_scope with monad.
Notation "x <- c ;; k" := (bind c (fun x => k))
  (at level 61, c at next level, right associativity) : monad_scope.
Notation "' pat <- c ;; k" := (bind c (fun x => match x with pat => k end))
  (at level 61, pat pattern, c at next level, right associativity)
  : monad_scope.
Notation "c ;; k" := (bind c (fun _ => k))
  (at level 61, right associativity) : monad_scope.

End Monad.

(* ===================================================================== *)
(** ** Fields *)
(* ===================================================================== *)

Module Field.

(** Modelled from the spec: the contract of a field (the field classes of
    comms/field are not among the sources).  A field of value type [V]
    has
    - [length()], the number of bytes it serialises to;
    - [write(iter, maxLen)], which gives a status and the bytes it has put
      through [iter], or throws;
    - [read(iter, size)], over the [size] bytes that start at [iter] (the
      list given), which gives a status and the number of bytes it has
      moved [iter] by, and leaves a value in the field;
    - [valid()] and [refresh()]. *)
Record Ops (V : Type) : Type := mkOps {
  length : V -> nat;
  write : V -> nat -> Outcome (ErrorStatus * list byte);
  read : list byte -> Monad.M V (ErrorStatus * nat);
  valid : V -> bool;
  refresh : V -> bool * V
}.

(** Modelled from the spec: "[write] always emits exactly [length()]
    bytes" and "returns [BufferOverflow] if [maxLen] is insufficient". *)
Definition write_emits_length (V : Type) (ops : Ops V) : Prop :=
  forall (v : V) (maxLen : nat),
    length ops v <= maxLen ->
    exists bs, write ops v maxLen = Ret (Success, bs) /\
               List.length bs = length ops v.

(** Modelled from the spec: the round trip of a field, "[write(read(
    write()))] reproduces the original bytes": a read of the bytes a
    successful write has put out, whatever follows them, gives the value
    back and moves the iterator past them. *)
Definition read_inverts_write (V : Type) (ops : Ops V) : Prop :=
  forall (v v0 : V) (maxLen : nat) (bs rest : list byte),
    write ops v maxLen = Ret (Success, bs) ->
    read ops (bs ++ rest) v0 = (Ret (Success, List.length bs), v).

(** A field object: a value with the operations of its class. *)
Record Obj : Type := mkObj {
  ValueType : Type;
  ops : Ops ValueType;
  value : ValueType
}.

Definition obj_length (f : Obj) : nat := length (ops f) (value f).

Definition obj_write (f : Obj) (maxLen : nat)
  : Outcome (ErrorStatus * list byte) :=
  write (ops f) (value f) maxLen.

Definition obj_read (f : Obj) (data : list byte)
  : Outcome (ErrorStatus * nat) * Obj :=
  let '(r, v') := read (ops f) data (value f) in
  (r, mkObj (ops f) v').

Definition obj_valid (f : Obj) : bool := valid (ops f) (value f).

Definition obj_refresh (f : Obj) : bool * Obj :=
  let '(changed, v') := refresh (ops f) (value f) in
  (changed, mkObj (ops f) v').

(** *** Example field classes *)

(** An unsigned field of one byte. *)
Definition uint8_field : Ops byte :=
  {| length := fun _ => 1;
     write := fun v maxLen =>
       if 1 <=? maxLen then Ret (Success, [v])
       else Ret (BufferOverflow, []);
     read := fun data v =>
       match data with
       | [] => (Ret (NotEnoughData, 0), v)
       | b :: _ => (Ret (Success, 1), b)
       end;
     valid := fun _ => true;
     refresh := fun v => (false, v) |}.

(** An unsigned field of one byte whose values from 128 on are not valid;
    [read] takes any byte. *)
Definition small_uint8_field : Ops byte :=
  {| length := fun _ => 1;
     write := fun v maxLen =>
       if 1 <=? maxLen then Ret (Success, [v])
       else Ret (BufferOverflow, []);
     read := fun data v =>
       match data with
       | [] => (Ret (NotEnoughData, 0), v)
       | b :: _ => (Ret (Success, 1), b)
       end;
     valid := fun v => Byte.to_nat v <? 128;
     refresh := fun v => (false, v) |}.

(** An unsigned field of one byte whose values from 128 on are not valid
    and whose [read] takes the byte into the field before it looks at it:
    for a byte from 128 on it reports [InvalidMsgData] with the byte in
    the field. *)
Definition storing_uint8_field : Ops byte :=
  {| length := fun _ => 1;
     write := fun v maxLen =>
       if 1 <=? maxLen then Ret (Success, [v])
       else Ret (BufferOverflow, []);
     read := fun data v =>
       match data with
       | [] => (Ret (NotEnoughData, 0), v)
       | b :: _ =>
           if Byte.to_nat b <? 128 then (Ret (Success, 1), b)
           else (Ret (InvalidMsgData, 1), b)
       end;
     valid := fun v => Byte.to_nat v <? 128;
     refresh := fun v => (false, v) |}.

(** A list of bytes behind a one byte count.  More than 255 bytes cannot
    be announced by the count: writing such a value is reported as
    [InvalidMsgData]. *)
Definition counted_bytes_field : Ops (list byte) :=
  {| length := fun v => 1 + List.length v;
     write := fun v maxLen =>
       if maxLen <? 1 + List.length v then Ret (BufferOverflow, [])
       else match Byte.of_nat (List.length v) with
            | Some n => Ret (Success, n :: v)
            | None => Ret (InvalidMsgData, [])
            end;
     read := fun data v =>
       match data with
       | [] => (Ret (NotEnoughData, 0), v)
       | n :: rest =>
           if List.length rest <? Byte.to_nat n
           then (Ret (NotEnoughData, 0), v)
           else (Ret (Success, 1 + Byte.to_nat n),
                 firstn (Byte.to_nat n) rest)
       end;
     valid := fun v => List.length v <=? 255;
     refresh := fun v => (false, v) |}.

(** A field whose [write] throws. *)
Definition throwing_field : Ops unit :=
  {| length := fun _ => 1;
     write := fun _ _ => Throw (other_exception 0);
     read := fun _ v => (Ret (Success, 0), v);
     valid := fun _ => true;
     refresh := fun v => (false, v) |}.

End Field.

(* ===================================================================== *)
(** ** field_wrapper/BitfieldWrapper.h, field_wrapper/UnknownValueWrapper.h *)
(* ===================================================================== *)

Module Wrapper.

Import Monad.
Local Open Scope monad_scope.

(** *** BitfieldWrapperT *)

(** What the wrapper template looks at in the field class [TField]:
    [TField::ValueType] and [comms::field::isBitfield<TField>()]. *)
Record FieldClass : Type := mkFieldClass {
  ValueType : CType;
  isBitfield : bool
}.

(** Modelled from the spec: [Base::UnderlyingType], the representation
    type of the numeric wrapper (NumericValueWrapper.h is not among the
    sources).  [BitfieldWrapper] derives from
    [NumericValueWrapper<long long unsigned>]; the representation has 64
    bits. *)
Definition UnderlyingType : CType := long_long_unsigned.

(** The three [static_assert]s of [BitfieldWrapperT<TField>]. *)
Definition BitfieldWrapperT_static_asserts (TField : FieldClass) : bool :=
  isBitfield TField
  && (sizeof (ValueType TField) <=? sizeof UnderlyingType)
  && (is_signed (ValueType TField)
      || (sizeof (ValueType TField) <? sizeof UnderlyingType)).

(** An object of class [BitfieldWrapperT<TField>]: a reference to the
    field (its address) in a class that has been instantiated, which it
    can only be when its [static_assert]s hold. *)
Record BitfieldWrapperT (TField : FieldClass) : Type := mkBitfieldWrapperT {
  field : nat;
  instantiated : BitfieldWrapperT_static_asserts TField = true
}.

(** [makeBitfieldWrapper<TField>(field)]; [None] when the translation unit
    that contains the call is rejected by the compiler. *)
Definition makeBitfieldWrapper (TField : FieldClass) (field : nat)
  : option (BitfieldWrapperT TField) :=
  match Bool.bool_dec (BitfieldWrapperT_static_asserts TField) true with
  | left ok => Some (mkBitfieldWrapperT TField field ok)
  | right _ => None
  end.

(** Bitfields whose value types have 128 bits, 32 bits, and 64 bits without
    and with sign. *)
Definition wide_bitfield : FieldClass := mkFieldClass uint128_t true.
Definition narrow_bitfield : FieldClass := mkFieldClass uint32_t true.
Definition unsigned64_bitfield : FieldClass := mkFieldClass uint64_t true.
Definition signed64_bitfield : FieldClass := mkFieldClass int64_t true.

(** *** UnknownValueWrapperT *)

Section Unknown.
Variable env : Env.
Variable V : Type.
Variable ops : Field.Ops V.

Definition SerialisedSeq : Type := list byte.

(** [UnknownValueWrapperT<TField>::getSerialisedValueImpl() const] *)
Definition getSerialisedValueImpl : M V SerialisedSeq :=
  field <- get ;;
  cap <- lift (Vec.reserve env (Field.length ops field)) ;;
  '(_, bs) <- lift (Field.write ops field (max_size env)) ;;
  value <- lift (Vec.push_back_all env cap [] bs) ;;
  ret value.

(** [UnknownValueWrapperT<TField>::setSerialisedValueImpl(value)] *)
Definition setSerialisedValueImpl (value : SerialisedSeq) : M V bool :=
  match value with
  | [] => ret false
  | _ :: _ =>
      '(es, _) <- Field.read ops value ;;
      ret (ErrorStatus_eqb es Success)
  end.

End Unknown.

End Wrapper.

(* ===================================================================== *)
(** ** comms_champion/MessageBase.h *)
(* ===================================================================== *)

Module Message.

Import Monad.
Local Open Scope monad_scope.

(** What a message is asked to do, in the order it is asked: the calls of
    the members of [CommsBase] and, below them, of the fields' [write] and
    [read]. *)
Inductive Event : Type :=
| ev_length
| ev_write
| ev_read
| ev_refresh
| ev_valid
| ev_field_write (idx : nat)
| ev_field_read (idx : nat).

Definition is_refresh (e : Event) : bool :=
  match e with ev_refresh => true | _ => false end.

Definition is_valid (e : Event) : bool :=
  match e with ev_valid => true | _ => false end.

Definition is_field_write (e : Event) : bool :=
  match e with ev_field_write _ => true | _ => false end.

(** A message object: its fields in declared order, and the calls it has
    seen. *)
Record Msg : Type := mkMsg {
  fields : list Field.Obj;
  trace : list Event
}.

Definition emit (e : Event) : M Msg unit :=
  fun m => (Ret tt, mkMsg (fields m) (trace m ++ [e])).

(** *** The message class of the comms library *)

(** Modelled from the spec: [CommsBase::length()] (the message classes of
    the comms library are not among the sources): the bytes of all
    fields. *)
Definition CommsBase_length : M Msg nat :=
  emit ev_length ;;
  m <- get ;;
  ret (list_sum (map Field.obj_length (fields m))).

(** The fields from [idx] on, written in declared order while [write]
    reports [Success]; the result is the last status and the bytes that
    went out. *)
Fixpoint write_fields (idx : nat) (fs : list Field.Obj) (maxLen : nat)
  : M Msg (ErrorStatus * list byte) :=
  match fs with
  | [] => ret (Success, [])
  | f :: rest =>
      emit (ev_field_write idx) ;;
      '(es, bs) <- lift (Field.obj_write f maxLen) ;;
      match es with
      | Success =>
          '(es', bs') <- write_fields (S idx) rest (maxLen - length bs) ;;
          ret (es', bs ++ bs')
      | _ => ret (es, bs)
      end
  end.

(** Modelled from the spec: [CommsBase::write(iter, size)], which "writes
    every field in declared order ...; on the first field failure, abort
    and report failure". *)
Definition CommsBase_write (size : nat) : M Msg (ErrorStatus * list byte) :=
  emit ev_write ;;
  m <- get ;;
  write_fields 0 (fields m) size.

(** The same fields written through [std::back_inserter(data)]: the bytes
    of a field go into [data] as the field writes them, so they are there
    before the next field is written; the result is the last status and
    [data]. *)
Fixpoint write_fields_back_inserter (env : Env) (idx : nat)
         (fs : list Field.Obj) (maxLen : nat) (data : DataSeq)
  : M Msg (ErrorStatus * DataSeq) :=
  match fs with
  | [] => ret (Success, data)
  | f :: rest =>
      emit (ev_field_write idx) ;;
      '(es, bs) <- lift (Field.obj_write f maxLen) ;;
      data <- lift (Vec.push_back_each env data bs) ;;
      match es with
      | Success =>
          write_fields_back_inserter env (S idx) rest (maxLen - length bs)
                                     data
      | _ => ret (es, data)
      end
  end.

(** Modelled from the spec: [CommsBase::write(iter, size)] for an [iter]
    that is [std::back_inserter(data)]. *)
Definition CommsBase_write_back_inserter (env : Env) (size : nat)
           (data : DataSeq) : M Msg (ErrorStatus * DataSeq) :=
  emit ev_write ;;
  m <- get ;;
  write_fields_back_inserter env 0 (fields m) size data.

(** The fields [fs], from [idx] on, read in declared order from [data]
    while [read] reports [Success].  The result is the outcome, the fields
    as they are left, and the trace. *)
Fixpoint read_fields (idx : nat) (fs : list Field.Obj) (data : list byte)
         (tr : list Event)
  : Outcome ErrorStatus * (list Field.Obj * list Event) :=
  match fs with
  | [] => (Ret Success, ([], tr))
  | f :: rest =>
      let '(r, f') := Field.obj_read f data in
      let tr1 := tr ++ [ev_field_read idx] in
      match r with
      | Ret (Success, n) =>
          let '(r', (rest', tr2)) :=
            read_fields (S idx) rest (skipn n data) tr1 in
          (r', (f' :: rest', tr2))
      | Ret (es, _) => (Ret es, (f' :: rest, tr1))
      | Throw e => (Throw e, (f' :: rest, tr1))
      | Abort => (Abort, (f' :: rest, tr1))
      end
  end.

(** Modelled from the spec: [CommsBase::read(iter, size)], which "reads
    every field in declared order from [bytes]; on first field failure,
    stop and report failure". *)
Definition CommsBase_read (data : list byte) : M Msg ErrorStatus :=
  fun m =>
    let '(r, (fs', tr')) :=
      read_fields 0 (fields m) data (trace m ++ [ev_read]) in
    (r, mkMsg fs' tr').

(** Modelled from the spec: [CommsBase::refresh()], which refreshes every
    field and "returns whether anything changed". *)
Definition CommsBase_refresh : M Msg bool :=
  emit ev_refresh ;;
  m <- get ;;
  let rs := map Field.obj_refresh (fields m) in
  put (mkMsg (map snd rs) (trace m)) ;;
  ret (existsb fst rs).

(** Modelled from the spec: [CommsBase::valid()], "every field reports
    valid". *)
Definition CommsBase_valid : M Msg bool :=
  emit ev_valid ;;
  m <- get ;;
  ret (forallb Field.obj_valid (fields m)).

(** *** MessageBase *)

(** The iterator types the [static_assert]s of [encodeDataImpl] and
    [encodeDataIntenal] let through for [CommsBase::WriteIterator]: a
    random access iterator, or [std::back_insert_iterator<DataSeq>]. *)
Inductive WriteIteratorType : Type :=
| random_access_iterator
| back_insert_iterator.

(** The same for [CommsBase::ReadIterator] in [decodeDataRandomAccess]:
    [DataSeq::const_iterator] or a pointer. *)
Inductive ReadIteratorType : Type :=
| DataSeq_const_iterator
| pointer.

(** The iterators [MessageBase] asks [TMessageBase] for:
    [comms::option::WriteIterator<std::back_insert_iterator<
    std::vector<std::uint8_t> > >] and
    [comms::option::ReadIterator<const std::uint8_t*>]. *)
Definition declared_WriteIterator : WriteIteratorType := back_insert_iterator.
Definition declared_ReadIterator : ReadIteratorType := pointer.

Section WithEnv.
Variable env : Env.

(** [refreshMsgImpl()] *)
Definition refreshMsgImpl : M Msg bool := CommsBase_refresh.

(** [isValidImpl() const] *)
Definition isValidImpl : M Msg bool := CommsBase_valid.

(** The [do { ... } while (false)] inside the [try] of
    [encodeDataRandomAccess]; the result is [data] as the statement
    leaves it. *)
Definition encodeDataRandomAccess_body : M Msg DataSeq :=
  len <- CommsBase_length ;;
  data <- lift (Vec.resize env [] len) ;;
  (* iter = &data[0] *)
  '(es, bs) <- CommsBase_write (length data) ;;
  let data := Vec.store data 0 bs in
  let iter := length bs in
  if negb (ErrorStatus_eqb es Success) then
    assert env false ;;
    ret [] (* data.clear(); break *)
  else
    (* begIter = &data[0]; std::distance(begIter, iter) *)
    data <- lift (Vec.resize env data (iter - 0)) ;;
    ret data.

(** [encodeDataRandomAccess() const] *)
Definition encodeDataRandomAccess : M Msg DataSeq :=
  try_catch encodeDataRandomAccess_body
            (ret [] (* data.clear() *)).

(** [encodeDataWithOutputIter(UseBackInserterTag) const] *)
Definition encodeDataWithOutputIter : M Msg DataSeq :=
  let data : DataSeq := [] in
  (* iter = std::back_inserter(data) *)
  '(es, data) <- CommsBase_write_back_inserter env (max_size env) data ;;
  assert env (ErrorStatus_eqb es Success) ;;
  ret data.

(** [encodeDataIntenal(Tag())], both overloads *)
Definition encodeDataIntenal (WriteIterator : WriteIteratorType)
  : M Msg DataSeq :=
  match WriteIterator with
  | random_access_iterator => encodeDataRandomAccess
  | back_insert_iterator => encodeDataWithOutputIter
  end.

(** [encodeDataImpl() const] for a given [CommsBase::WriteIterator] *)
Definition encodeDataImpl_with (WriteIterator : WriteIteratorType)
  : M Msg DataSeq :=
  encodeDataIntenal WriteIterator.

(** [encodeDataImpl() const] *)
Definition encodeDataImpl : M Msg DataSeq :=
  encodeDataImpl_with declared_WriteIterator.

(** [decodeDataRandomAccessWithIter(iter, bufSize)]; [iter] is the data
    from the iterator on. *)
Definition decodeDataRandomAccessWithIter (iter : list byte)
           (bufSize : nat) : M Msg bool :=
  es <- CommsBase_read (firstn bufSize iter) ;;
  ret (ErrorStatus_eqb es Success).

(** [decodeDataRandomAccessInternal(data, Tag())], both overloads *)
Definition decodeDataRandomAccessInternal (ReadIterator : ReadIteratorType)
           (data : DataSeq) : M Msg bool :=
  match ReadIterator with
  | DataSeq_const_iterator =>
      (* iter = data.begin() *)
      decodeDataRandomAccessWithIter data (length data)
  | pointer =>
      (* iter = &data[0] *)
      decodeDataRandomAccessWithIter data (length data)
  end.

(** [decodeDataRandomAccess(data)] *)
Definition decodeDataRandomAccess (ReadIterator : ReadIteratorType)
           (data : DataSeq) : M Msg bool :=
  decodeDataRandomAccessInternal ReadIterator data.

(** [decodeDataImpl(data)] for a given [CommsBase::ReadIterator] *)
Definition decodeDataImpl_with (ReadIterator : ReadIteratorType)
           (data : DataSeq) : M Msg bool :=
  decodeDataRandomAccess ReadIterator data.

(** [decodeDataImpl(data)] *)
Definition decodeDataImpl (data : DataSeq) : M Msg bool :=
  decodeDataImpl_with declared_ReadIterator data.

End WithEnv.

(** *** Predicates of the statements *)

(** Every field is read in declared order from [data] and reports
    [Success]; [fs'] are the fields as the reads leave them. *)
Inductive reads_all : list Field.Obj -> list byte -> list Field.Obj -> Prop :=
| reads_all_nil : forall data, reads_all [] data []
| reads_all_cons : forall f f' n rest rest' data,
    Field.obj_read f data = (Ret (Success, n), f') ->
    reads_all rest (skipn n data) rest' ->
    reads_all (f :: rest) data (f' :: rest').

(** The fields before index [k] are read in declared order and report
    [Success]; the read of the field at index [k] does not. *)
Inductive reads_until_failure : list Field.Obj -> list byte -> nat -> Prop :=
| fails_here : forall f f' r rest data,
    Field.obj_read f data = (r, f') ->
    (forall n, r <> Ret (Success, n)) ->
    reads_until_failure (f :: rest) data 0
| fails_later : forall f f' n rest data k,
    Field.obj_read f data = (Ret (Success, n), f') ->
    reads_until_failure rest (skipn n data) k ->
    reads_until_failure (f :: rest) data (S k).

(** Every field is written in declared order, each into what the fields
    before it have left of [maxLen] bytes, and reports [Success]; [bs] are
    the bytes put out. *)
Inductive writes_all : list Field.Obj -> nat -> list byte -> Prop :=
| writes_all_nil : forall maxLen, writes_all [] maxLen []
| writes_all_cons : forall f rest maxLen bs bs',
    Field.obj_write f maxLen = Ret (Success, bs) ->
    writes_all rest (maxLen - length bs) bs' ->
    writes_all (f :: rest) maxLen (bs ++ bs').


(** The contracts of the field classes, for a field object. *)
Definition obj_write_emits_length (f : Field.Obj) : Prop :=
  Field.write_emits_length (Field.ops f).

Definition obj_read_inverts_write (f : Field.Obj) : Prop :=
  Field.read_inverts_write (Field.ops f).

(** The calls of a decode that reads the fields of index 0 to [k - 1]. *)
Definition decode_events (k : nat) : list Event :=
  ev_read :: map ev_field_read (seq 0 k).

(** How often [refresh()] is called in a trace. *)
Definition refresh_calls (tr : list Event) : nat :=
  length (filter is_refresh tr).

(** A [const] member function that does not call [refresh()]: the fields
    stay as they are and the calls it adds to the trace have no
    [refresh()] among them. *)
Definition const_without_refresh (A : Type) (c : M Msg A) : Prop :=
  forall m : Msg,
    fields (snd (c m)) = fields m /\
    exists evs, trace (snd (c m)) = trace m ++ evs /\ refresh_calls evs = 0.

(** A trace in which [refresh()] is called exactly once, and before any
    field is written. *)
Definition refreshes_once_before_writing (tr : list Event) : Prop :=
  exists before after,
    tr = before ++ ev_refresh :: after /\
    Forall (fun e => is_refresh e = false /\ is_field_write e = false) before /\
    Forall (fun e => is_refresh e = false) after.

(** *** Example messages and environments *)

Definition example_env : Env :=
  {| max_size := 4096; alloc_ok := fun _ => true; NDEBUG := true |}.

Definition example_env_debug : Env :=
  {| max_size := 4096; alloc_ok := fun _ => true; NDEBUG := false |}.

(** An environment without memory to allocate. *)
Definition example_env_no_memory : Env :=
  {| max_size := 4096; alloc_ok := fun _ => false; NDEBUG := true |}.

(** An environment with memory for a vector of two bytes and for no
    other. *)
Definition example_env_two_only : Env :=
  {| max_size := 4096; alloc_ok := fun n => n =? 2; NDEBUG := true |}.

(** Two fields of one byte, holding 01 and 02. *)
Definition two_bytes_msg : Msg :=
  mkMsg [Field.mkObj Field.uint8_field x01;
         Field.mkObj Field.uint8_field x02] [].

(** A field of one byte holding 01, then a counted list of 256 bytes. *)
Definition overlong_msg : Msg :=
  mkMsg [Field.mkObj Field.uint8_field x01;
         Field.mkObj Field.counted_bytes_field (repeat x00 256)] [].

(** One field of one byte with values below 128, holding 01. *)
Definition small_msg : Msg :=
  mkMsg [Field.mkObj Field.small_uint8_field x01] [].

(** A field of one byte holding 01, then a field whose [write] throws. *)
Definition throwing_msg : Msg :=
  mkMsg [Field.mkObj Field.uint8_field x01;
         Field.mkObj Field.throwing_field tt] [].

End Message.

(* ===================================================================== *)
(** ** lib/comms_champion/src/Plugin.cpp *)
(* ===================================================================== *)

Module Plugin.

Import Monad.
Local Open Scope monad_scope.

Section WithDerived.
Variable env : Env.

(** The members a class derived from [Plugin] adds, [QVariantMap] with its
    default constructed value, and the widget a [WidgetPtr] can point
    to. *)
Variable Derived : Type.
Variable QVariantMap : Type.
Variable empty_map : QVariantMap.
Variable Widget : Type.

(** A plugin object: [m_ctrlInterface], a pointer to a
    [PluginControlInterface] ([None] for [nullptr], else the address), and
    the members of the derived class. *)
Record Plugin : Type := mkPlugin {
  m_ctrlInterface : option nat;
  derived : Derived
}.

(** The virtual member functions, as the class of the object has them. *)
Record VTable : Type := mkVTable {
  applyImpl : M Plugin unit;
  getCurrentConfigImpl : QVariantMap -> M Plugin QVariantMap;
  reconfigureImpl : QVariantMap -> M Plugin unit;
  getConfigWidgetImpl : M Plugin (option Widget)
}.

(** [Plugin::isApplied() const] *)
Definition isApplied : M Plugin bool :=
  p <- get ;;
  ret (match m_ctrlInterface p with Some _ => true | None => false end).

(** [Plugin::apply(controlInterface)]; [controlInterface] is the address
    of the object referred to. *)
Definition apply (vt : VTable) (controlInterface : nat) : M Plugin unit :=
  applied <- isApplied ;;
  assert env (negb applied) ;;
  p <- get ;;
  put (mkPlugin (Some controlInterface) (derived p)) ;;
  applyImpl vt.

(** [Plugin::getCurrentConfig(QVariantMap& config)]; the result is
    [config] as the call leaves it. *)
Definition getCurrentConfig_into (vt : VTable) (config : QVariantMap)
  : M Plugin QVariantMap :=
  getCurrentConfigImpl vt config.

(** [Plugin::getCurrentConfig()] *)
Definition getCurrentConfig (vt : VTable) : M Plugin QVariantMap :=
  let config := empty_map in
  config <- getCurrentConfig_into vt config ;;
  ret config.

(** [Plugin::reconfigure(config)] *)
Definition reconfigure (vt : VTable) (config : QVariantMap)
  : M Plugin unit :=
  reconfigureImpl vt config.

(** [Plugin::getConfigWidget()]; [None] is the null [WidgetPtr]. *)
Definition getConfigWidget (vt : VTable) : M Plugin (option Widget) :=
  getConfigWidgetImpl vt.

(** [Plugin::getCurrentConfigImpl(config)] *)
Definition Plugin_getCurrentConfigImpl (config : QVariantMap)
  : M Plugin QVariantMap :=
  ret config.

(** [Plugin::reconfigureImpl(config)] *)
Definition Plugin_reconfigureImpl (config : QVariantMap) : M Plugin unit :=
  ret tt.

(** [Plugin::getConfigWidgetImpl()] *)
Definition Plugin_getConfigWidgetImpl : M Plugin (option Widget) :=
  ret None.

(** [Plugin::ctrlInterface()]; the result is the address of the object the
    reference returned refers to, [None] for the reference that
    [*m_ctrlInterface] is when the pointer is null, which a program must
    not make. *)
Definition ctrlInterface : M Plugin (option nat) :=
  applied <- isApplied ;;
  assert env applied ;;
  p <- get ;;
  ret (m_ctrlInterface p).

(** The table of a class that overrides [applyImpl] only. *)
Definition base_vtable (applyImpl : M Plugin unit) : VTable :=
  mkVTable applyImpl Plugin_getCurrentConfigImpl Plugin_reconfigureImpl
           Plugin_getConfigWidgetImpl.

(** An [applyImpl] that returns and leaves the pointer to the control
    interface alone. *)
Definition applyImpl_keeps_interface (vt : VTable) : Prop :=
  forall p : Plugin,
    exists p', applyImpl vt p = (Ret tt, p') /\
               m_ctrlInterface p' = m_ctrlInterface p.

End WithDerived.

(** A plugin whose derived class counts the calls of [applyImpl]. *)
Definition counting_vtable : VTable nat unit unit :=
  base_vtable unit unit
    (fun p => (Ret tt, mkPlugin (m_ctrlInterface p) (S (derived p)))).

End Plugin.

(* ===================================================================== *)
(** * Properties *)
(* ===================================================================== *)

Unset Implicit Arguments.

(** ** Traversal of tuples *)

Module TupleFacts.
Import Tuple.

Section WithUniverse.
Variable U : Type.
Variable El : U -> Type.

Lemma to_list_length : forall ts (t : tuple El ts),
  length (to_list t) = tuple_size t.
Proof.
  unfold tuple_size. induction t; simpl; auto.
Qed.

Lemma to_list_nth : forall ts (t : tuple El ts) i,
  nth_error (to_list t) i = get i t.
Proof.
  induction t; intros [|i]; simpl; auto.
Qed.

Section WithFunctor.
Variable St : Type.
Variable func : TFunc El St.

Lemma forEach_from_all : forall ts (t : tuple El ts) s,
  forEach_from (length ts) func t s = (t, s).
Proof.
  induction t; intros s; simpl; auto.
  now rewrite IHt.
Qed.

(** One call at index [k] takes the iteration from [k] to [S k]. *)
Lemma call_at_step : forall ts (t : tuple El ts) k s,
  k < length ts ->
  exists t' s',
    call_at k func t s = Some (t', s') /\
    forEach_from k func t s = forEach_from (S k) func t' s'.
Proof.
  induction t as [|u us x r IH]; intros k s Hk; simpl in Hk.
  - lia.
  - destruct k as [|k].
    + simpl. destruct (func u x s) as [x' s1].
      exists (tcons u x' r), s1. split; [reflexivity|].
      destruct r; simpl; reflexivity.
    + destruct (IH k s) as (r' & s' & Hc & Hf); [lia|].
      exists (tcons u x r'), s'. split.
      * simpl. now rewrite Hc.
      * change (forEach_from (S k) func (tcons u x r) s)
          with (let '(r0, s0) := forEach_from k func r s in
                (tcons u x r0, s0)).
        change (forEach_from (S (S k)) func (tcons u x r') s')
          with (let '(r0, s0) := forEach_from (S k) func r' s' in
                (tcons u x r0, s0)).
        now rewrite Hf.
Qed.

Lemma TupleForEachHelper_exec_from : forall TRem ts (t : tuple El ts) s,
  TRem <= length ts ->
  TupleForEachHelper_exec TRem func t s
  = Some (forEach_from (length ts - TRem) func t s).
Proof.
  induction TRem as [|TRem IH]; intros ts t s Hle.
  - simpl. now rewrite Nat.sub_0_r, forEach_from_all.
  - cbn [TupleForEachHelper_exec]. unfold tuple_size.
    destruct (Nat.leb_spec (S TRem) (length ts)) as [_|]; [|lia].
    destruct (@call_at_step ts t (length ts - S TRem) s)
      as (t' & s' & Hc & Hf); [lia|].
    rewrite Hc, Hf, IH by lia.
    do 2 f_equal. lia.
Qed.

Lemma tupleForEach_forEach_spec : forall ts (t : tuple El ts) s,
  tupleForEach func t s = Some (forEach_spec func t s).
Proof.
  intros. unfold tupleForEach, tuple_size.
  rewrite TupleForEachHelper_exec_from by lia.
  now rewrite Nat.sub_diag.
Qed.

Lemma forEach_spec_logging : forall ts (t : tuple El ts) s log,
  forEach_spec (logging func) t (s, log)
  = (fst (forEach_spec func t s),
     (snd (forEach_spec func t s), log ++ to_list t)).
Proof.
  induction t as [|u us x r IH]; intros s log; simpl.
  - now rewrite app_nil_r.
  - unfold logging at 1; simpl.
    destruct (func u x s) as [x' s1].
    rewrite IH.
    destruct (forEach_spec func r s1) as [r' s2]; simpl.
    now rewrite <- app_assoc.
Qed.

End WithFunctor.

(** C3. [tupleForEach] over a tuple of K elements is well formed and does
    what plain iteration from the first to the last element does.  A
    functor that logs its calls has been called K times when
    [tupleForEach] returns, and the i-th call (i from 0 to K-1) was for
    the element of index i: the log is the sequence of the elements. *)
Theorem tupleForEach_once_per_element_in_order :
  forall (St : Type) (func : TFunc El St) ts (t : tuple El ts) (s : St),
    tupleForEach func t s = Some (forEach_spec func t s) /\
    tupleForEach (logging func) t (s, [])
    = Some (fst (forEach_spec func t s),
            (snd (forEach_spec func t s), to_list t)) /\
    length (to_list t) = tuple_size t /\
    (forall i, nth_error (to_list t) i = get i t).
Proof.
  intros St func ts t s. repeat split.
  - apply tupleForEach_forEach_spec.
  - rewrite tupleForEach_forEach_spec, forEach_spec_logging. reflexivity.
  - apply to_list_length.
  - intros i. apply to_list_nth.
Qed.

End WithUniverse.

Example tupleForEach_example :
  tupleForEach example_func example_tuple []
  = Some (tcons t_unsigned 4 (tcons t_bool false (tcons t_unsigned 6 tnil)),
          [3; 1; 5]).
Proof. reflexivity. Qed.

End TupleFacts.

(** ** Options of a bitmask field *)

Module BitmaskFacts.
Import Bitmask.

Section WithTypes.
Variable Initialiser Validator : Type.
Variable SizeToType : nat -> bool -> CType.

(** Specialisations for options of different kinds hide different
    members, so it does not matter which of the two is the derived one. *)
Lemma BitmaskValueBase_swap :
  forall (x y : TOption Initialiser Validator) TOptions,
    kind x <> kind y ->
    BitmaskValueBase SizeToType (x :: y :: TOptions)
    = BitmaskValueBase SizeToType (y :: x :: TOptions).
Proof.
  intros x y l Hk.
  destruct x, y; simpl in *; try reflexivity; congruence.
Qed.

Lemma BitmaskValueBase_skip : forall (x : TOption Initialiser Validator) l l',
  BitmaskValueBase SizeToType l = BitmaskValueBase SizeToType l' ->
  BitmaskValueBase SizeToType (x :: l) = BitmaskValueBase SizeToType (x :: l').
Proof.
  intros x l l' H. destruct x; simpl; now rewrite H.
Qed.

Lemma option_set_Permutation :
  forall l l' : list (TOption Initialiser Validator),
    Permutation l l' -> option_set l -> option_set l'.
Proof.
  unfold option_set. intros l l' HP HN.
  eapply Permutation_NoDup; [|exact HN].
  now apply Permutation_map.
Qed.

(** C6. The options of an option set (fixed length, default value
    initialiser, contents validator, bit indexing from the MSB; none of
    them twice) can be given in any order: every permutation gives a class
    with the same members, that is the same [SerialisedLen], [ValueType],
    [BitZeroIsMsb], [HasCustomValidator] and [HasCustomInitialiser] (and
    the same validator and initialiser types). *)
Theorem BitmaskValueBase_option_order :
  forall l l' : list (TOption Initialiser Validator),
    option_set l ->
    Permutation l l' ->
    BitmaskValueBase SizeToType l = BitmaskValueBase SizeToType l'.
Proof.
  intros l l' HN HP.
  induction HP as [|x l l' HP IH|x y l|l l' l'' HP1 IH1 HP2 IH2].
  - reflexivity.
  - apply BitmaskValueBase_skip, IH.
    unfold option_set in *. simpl in HN. now inversion HN.
  - apply BitmaskValueBase_swap.
    unfold option_set in HN. simpl in HN.
    inversion HN as [|k ks Hnin _]; subst.
    intros Heq. apply Hnin. left. now symmetry.
  - rewrite IH1 by assumption. apply IH2.
    eapply option_set_Permutation; eassumption.
Qed.

(** C7. With no option at all the members are those of the primary
    class: a value type of 64 bits without sign, serialised in its 8
    bytes; bit zero is not the MSB; no custom initialiser and no custom
    validator. *)
Theorem BitmaskValueBase_no_options :
  let Base := @BitmaskValueBase Initialiser Validator SizeToType [] in
  ValueType Base = long_long_unsigned /\
  SerialisedLen Base = 8 /\
  sizeof (ValueType Base) * 8 = 64 /\
  is_signed (ValueType Base) = false /\
  BitZeroIsMsb Base = false /\
  HasCustomInitialiser Base = false /\
  HasCustomValidator Base = false /\
  DefaultValueInitialiser Base = None /\
  ContentsValidator Base = None.
Proof.
  repeat split.
Qed.

End WithTypes.

(** The same four options, forwards and backwards. *)
Lemma BitmaskValueBase_option_order_witness :
  BitmaskValueBase example_SizeToType
    [option_FixedLength 2; option_BitIndexingStartsFromMsb;
     option_DefaultValueInitialiser 7; option_ContentsValidator true]
  = BitmaskValueBase example_SizeToType
    [option_ContentsValidator true; option_DefaultValueInitialiser 7;
     option_BitIndexingStartsFromMsb; option_FixedLength 2].
Proof.
  apply (BitmaskValueBase_option_order nat bool example_SizeToType).
  - unfold option_set; simpl.
    repeat constructor; simpl; intuition discriminate.
  - apply (Permutation_rev
             [option_FixedLength 2; option_BitIndexingStartsFromMsb;
              option_DefaultValueInitialiser 7; option_ContentsValidator true]).
Defined.

(** Outside option sets the order does matter: of two fixed lengths the
    first one is the length of the field. *)
Example BitmaskValueBase_two_lengths :
  SerialisedLen (BitmaskValueBase (Initialiser:=nat) (Validator:=bool)
                   example_SizeToType
                   [option_FixedLength 2; option_FixedLength 4]) = 2 /\
  SerialisedLen (BitmaskValueBase (Initialiser:=nat) (Validator:=bool)
                   example_SizeToType
                   [option_FixedLength 4; option_FixedLength 2]) = 4.
Proof. split; reflexivity. Qed.

End BitmaskFacts.

(** ** Field wrappers *)

Module WrapperFacts.
Import Monad Wrapper.

(** C8. [BitfieldWrapperT] over a field class whose value type is wider
    than the 64 bits of the wrapper's representation type does not
    instantiate: no object of the class exists, and whatever the field
    object is, [makeBitfieldWrapper] for it is rejected. *)
Theorem BitfieldWrapperT_rejects_wide_field :
  forall TField : FieldClass,
    sizeof UnderlyingType < sizeof (ValueType TField) ->
    sizeof UnderlyingType * 8 = 64 /\
    BitfieldWrapperT_static_asserts TField = false /\
    (BitfieldWrapperT TField -> False) /\
    (forall field : nat, makeBitfieldWrapper TField field = None).
Proof.
  intros TField Hwide.
  assert (Hs : BitfieldWrapperT_static_asserts TField = false).
  { unfold BitfieldWrapperT_static_asserts.
    destruct (Nat.leb_spec (sizeof (ValueType TField)) (sizeof UnderlyingType));
      [lia|].
    now rewrite andb_false_r. }
  repeat split.
  - exact Hs.
  - intros [_ Hi]. congruence.
  - intros field. unfold makeBitfieldWrapper.
    destruct (bool_dec (BitfieldWrapperT_static_asserts TField) true);
      [congruence | reflexivity].
Qed.

Lemma BitfieldWrapperT_rejects_wide_field_witness :
  sizeof UnderlyingType < sizeof (ValueType wide_bitfield) /\
  makeBitfieldWrapper wide_bitfield 0 = None.
Proof.
  split.
  - simpl. lia.
  - apply (BitfieldWrapperT_rejects_wide_field wide_bitfield). simpl. lia.
Defined.

(** A field of 32 bits is accepted.  At 64 bits the third [static_assert]
    lets a signed value type through and stops an unsigned one. *)
Example makeBitfieldWrapper_narrow :
  (exists w, makeBitfieldWrapper narrow_bitfield 0 = Some w) /\
  (exists w, makeBitfieldWrapper signed64_bitfield 0 = Some w) /\
  makeBitfieldWrapper unsigned64_bitfield 0 = None.
Proof. repeat split; eexists; reflexivity. Qed.

Section Unknown.
Variable env : Env.
Variable V : Type.
Variable ops : Field.Ops V.

(** C4, as the code has it.  [setSerialisedValueImpl] with no bytes
    returns false and does not touch the field, which is not read.  When
    there are bytes and the field's [read] of them does not report
    [Success], it returns false and the field is as that read has left it:
    the wrapper puts nothing back, so the field has its value of before
    exactly when the read has left it there. *)
Theorem setSerialisedValueImpl_failure :
  (forall field : V,
     setSerialisedValueImpl ops [] field = (Ret false, field)) /\
  (forall (value : SerialisedSeq) (field field' : V) es n,
     value <> [] ->
     Field.read ops value field = (Ret (es, n), field') ->
     es <> Success ->
     setSerialisedValueImpl ops value field = (Ret false, field') /\
     (setSerialisedValueImpl ops value field = (Ret false, field) <->
      field' = field)).
Proof.
  split.
  - reflexivity.
  - intros value field field' es n Hne Hread Hes.
    assert (Hrun : setSerialisedValueImpl ops value field
                   = (Ret false, field')).
    { destruct value as [|b value]; [congruence|].
      unfold setSerialisedValueImpl, bind, ret. rewrite Hread.
      destruct es; simpl; congruence. }
    split; [exact Hrun|].
    rewrite Hrun. split; [intros H; now inversion H | now intros ->].
Qed.

(** What [getSerialisedValueImpl] gives when nothing throws: the bytes the
    field has written, whatever the status. *)
Lemma getSerialisedValueImpl_bytes : forall (field : V) cap es bs value,
  Vec.reserve env (Field.length ops field) = Ret cap ->
  Field.write ops field (max_size env) = Ret (es, bs) ->
  Vec.push_back_all env cap [] bs = Ret value ->
  getSerialisedValueImpl env ops field = (Ret bs, field).
Proof.
  intros field cap es bs value Hr Hw Hp.
  unfold getSerialisedValueImpl, bind, get, lift, ret.
  assert (Hv : value = bs).
  { unfold Vec.push_back_all in Hp.
    repeat match type of Hp with
           | (if ?c then _ else _) = _ => destruct c
           end; simpl in Hp; congruence. }
  subst value. simpl. now rewrite Hr, Hw, Hp.
Qed.

(** C9. For a field class whose [write] emits exactly [length()] bytes,
    and as long as the vector for them can be had, [getSerialisedValueImpl]
    returns exactly the bytes that the field's [write] produces for its
    current value, [length()] of them, and leaves the field as it is. *)
Theorem getSerialisedValueImpl_is_write :
  forall field : V,
    Field.write_emits_length ops ->
    Field.length ops field <= max_size env ->
    alloc_ok env (Field.length ops field) = true ->
    exists bs,
      Field.write ops field (max_size env) = Ret (Success, bs) /\
      getSerialisedValueImpl env ops field = (Ret bs, field) /\
      length bs = Field.length ops field.
Proof.
  intros field Hw Hmax Halloc.
  destruct (Hw field (max_size env) Hmax) as (bs & Hbs & Hlen).
  exists bs. repeat split; trivial.
  assert (Hr : exists cap, Vec.reserve env (Field.length ops field) = Ret cap
                           /\ Field.length ops field <= cap).
  { unfold Vec.reserve.
    destruct (Nat.ltb_spec (max_size env) (Field.length ops field)); [lia|].
    destruct (Nat.eqb_spec (Field.length ops field) 0) as [E|E].
    - exists 0. split; [reflexivity | lia].
    - rewrite Halloc. exists (Field.length ops field).
      split; [reflexivity | lia]. }
  destruct Hr as (cap & Hr & Hcap).
  apply (getSerialisedValueImpl_bytes field cap Success bs bs Hr Hbs).
  unfold Vec.push_back_all. simpl length.
  destruct (Nat.leb_spec (0 + length bs) cap); [reflexivity | lia].
Qed.

End Unknown.

Lemma uint8_field_write_emits_length :
  Field.write_emits_length Field.uint8_field.
Proof.
  intros v maxLen Hle. simpl in Hle. exists [v].
  destruct maxLen as [|maxLen]; [lia | split; reflexivity].
Qed.

(** A count of five with one byte behind it: the read fails and leaves the
    field alone, and so does the wrapper. *)
Lemma setSerialisedValueImpl_failure_witness :
  setSerialisedValueImpl Field.counted_bytes_field [x05; x00] [x01]
  = (Ret false, [x01]) /\
  (setSerialisedValueImpl Field.counted_bytes_field [x05; x00] [x01]
   = (Ret false, [x01]) <-> [x01] = [x01]).
Proof.
  apply (proj2 (setSerialisedValueImpl_failure (list byte)
                  Field.counted_bytes_field)
           [x05; x00] [x01] [x01] NotEnoughData 0).
  - discriminate.
  - reflexivity.
  - discriminate.
Defined.

(** C4 as stated does not hold: a field whose [read] takes the byte ff
    and then reports [InvalidMsgData] has ff in it when
    [setSerialisedValueImpl] returns false, not the 01 of before. *)
Lemma setSerialisedValueImpl_failure_counterexample :
  Field.read Field.storing_uint8_field [xff] x01
  = (Ret (InvalidMsgData, 1), xff) /\
  setSerialisedValueImpl Field.storing_uint8_field [xff] x01
  = (Ret false, xff) /\
  ~ (forall (value : SerialisedSeq) (field field' : byte) es n,
       value = [] \/
       (Field.read Field.storing_uint8_field value field
        = (Ret (es, n), field') /\ es <> Success) ->
       setSerialisedValueImpl Field.storing_uint8_field value field
       = (Ret false, field)).
Proof.
  split; [reflexivity|]. split; [reflexivity|].
  intros H.
  specialize (H [xff] x01 xff InvalidMsgData 1).
  assert (Hrun : setSerialisedValueImpl Field.storing_uint8_field [xff] x01
                 = (Ret false, x01)).
  { apply H. right. split; [reflexivity | discriminate]. }
  discriminate Hrun.
Qed.

Lemma getSerialisedValueImpl_is_write_witness :
  exists bs,
    Field.write Field.uint8_field x2a (max_size Message.example_env)
    = Ret (Success, bs) /\
    getSerialisedValueImpl Message.example_env Field.uint8_field x2a
    = (Ret bs, x2a) /\
    length bs = Field.length Field.uint8_field x2a.
Proof.
  apply (getSerialisedValueImpl_is_write Message.example_env byte
           Field.uint8_field x2a uint8_field_write_emits_length).
  - simpl. lia.
  - reflexivity.
Defined.

End WrapperFacts.

(** ** Message encoding and decoding *)

Module MessageFacts.
Import Monad Message.
Local Open Scope monad_scope.

(** *** Encoding does not refresh *)

Lemma refresh_calls_app : forall tr1 tr2,
  refresh_calls (tr1 ++ tr2) = refresh_calls tr1 + refresh_calls tr2.
Proof.
  intros. unfold refresh_calls. now rewrite filter_app, length_app.
Qed.

Section Const.
Context {A B : Type}.

Lemma const_ret : forall a : A, const_without_refresh (ret a).
Proof.
  intros a m. split; [reflexivity|].
  exists []. simpl. now rewrite app_nil_r.
Qed.

Lemma const_lift : forall o : Outcome A, const_without_refresh (lift o).
Proof.
  intros o m. split; [reflexivity|].
  exists []. simpl. now rewrite app_nil_r.
Qed.

Lemma const_bind : forall (c : M Msg A) (k : A -> M Msg B),
  const_without_refresh c ->
  (forall a, const_without_refresh (k a)) ->
  const_without_refresh (bind c k).
Proof.
  intros c k Hc Hk m. unfold bind.
  destruct (Hc m) as (Hf & evs & Ht & Hn).
  destruct (c m) as [[a|e|] m1]; simpl in *.
  - destruct (Hk a m1) as (Hf' & evs' & Ht' & Hn').
    split; [congruence|].
    exists (evs ++ evs'). rewrite Ht', Ht, app_assoc. split; [reflexivity|].
    rewrite refresh_calls_app. lia.
  - split; [assumption|]. now exists evs.
  - split; [assumption|]. now exists evs.
Qed.

Lemma const_try_catch : forall c h : M Msg A,
  const_without_refresh c ->
  const_without_refresh h ->
  const_without_refresh (try_catch c h).
Proof.
  intros c h Hc Hh m. unfold try_catch.
  destruct (Hc m) as (Hf & evs & Ht & Hn).
  destruct (c m) as [[a|e|] m1]; simpl in *.
  - split; [assumption|]. now exists evs.
  - destruct (Hh m1) as (Hf' & evs' & Ht' & Hn').
    split; [congruence|].
    exists (evs ++ evs'). rewrite Ht', Ht, app_assoc. split; [reflexivity|].
    rewrite refresh_calls_app. lia.
  - split; [assumption|]. now exists evs.
Qed.

End Const.

Lemma const_get : const_without_refresh get.
Proof.
  intros m. split; [reflexivity|].
  exists []. simpl. now rewrite app_nil_r.
Qed.

Lemma const_emit : forall e,
  is_refresh e = false -> const_without_refresh (emit e).
Proof.
  intros e He m. split; [reflexivity|].
  exists [e]. split; [reflexivity|].
  unfold refresh_calls. simpl. now rewrite He.
Qed.

Lemma const_assert : forall env cond,
  const_without_refresh (assert (St:=Msg) env cond).
Proof.
  intros env cond. unfold assert.
  destruct (NDEBUG env || cond).
  - apply const_ret.
  - intros m. split; [reflexivity|].
    exists []. simpl. now rewrite app_nil_r.
Qed.

Create HintDb const_db.
#[local] Hint Resolve const_ret const_lift const_get const_assert : const_db.

Ltac const_step :=
  first [ apply const_bind; [|intros ?]
        | apply const_emit; reflexivity
        | apply const_try_catch
        | solve [auto with const_db] ].

Lemma const_write_fields : forall fs idx maxLen,
  const_without_refresh (write_fields idx fs maxLen).
Proof.
  induction fs as [|f rest IH]; intros idx maxLen; simpl.
  - apply const_ret.
  - apply const_bind; [apply const_emit; reflexivity|]. intros _.
    apply const_bind; [apply const_lift|]. intros [es bs].
    destruct es; try apply const_ret.
    apply const_bind; [apply IH|].
    intros [es' bs']. apply const_ret.
Qed.

Lemma const_CommsBase_write : forall size,
  const_without_refresh (CommsBase_write size).
Proof.
  intros size. unfold CommsBase_write.
  repeat const_step. apply const_write_fields.
Qed.

Lemma const_CommsBase_length : const_without_refresh CommsBase_length.
Proof.
  unfold CommsBase_length. repeat const_step.
Qed.

Lemma const_encodeDataRandomAccess : forall env,
  const_without_refresh (encodeDataRandomAccess env).
Proof.
  intros env. unfold encodeDataRandomAccess, encodeDataRandomAccess_body.
  apply const_try_catch; [|apply const_ret].
  apply const_bind; [apply const_CommsBase_length|]. intros len.
  apply const_bind; [apply const_lift|]. intros data.
  apply const_bind; [apply const_CommsBase_write|]. intros [es bs].
  destruct (negb (ErrorStatus_eqb es Success)); repeat const_step.
Qed.

Lemma const_write_fields_back_inserter : forall env fs idx maxLen data,
  const_without_refresh (write_fields_back_inserter env idx fs maxLen data).
Proof.
  intros env. induction fs as [|f rest IH]; intros idx maxLen data; simpl.
  - apply const_ret.
  - apply const_bind; [apply const_emit; reflexivity|]. intros _.
    apply const_bind; [apply const_lift|]. intros [es bs].
    apply const_bind; [apply const_lift|]. intros data'.
    destruct es; try apply const_ret. apply IH.
Qed.

Lemma const_encodeDataWithOutputIter : forall env,
  const_without_refresh (encodeDataWithOutputIter env).
Proof.
  intros env. unfold encodeDataWithOutputIter, CommsBase_write_back_inserter.
  apply const_bind.
  - repeat const_step. apply const_write_fields_back_inserter.
  - intros [es bs]. repeat const_step.
Qed.

(** C2, as the code has it.  Encoding does not call [refresh()], not once:
    [encodeDataImpl], for either kind of write iterator, leaves the fields
    as they are and asks the message only for its length and for the write
    of its fields.  Refreshing is another member function,
    [refreshMsgImpl], which calls [refresh()] once and writes nothing. *)
Theorem encodeDataImpl_does_not_refresh :
  forall (env : Env) (WriteIterator : WriteIteratorType) (m : Msg),
    (fields (snd (encodeDataImpl_with env WriteIterator m)) = fields m /\
     exists evs,
       trace (snd (encodeDataImpl_with env WriteIterator m)) = trace m ++ evs /\
       refresh_calls evs = 0) /\
    trace (snd (refreshMsgImpl m)) = trace m ++ [ev_refresh].
Proof.
  intros env WriteIterator m. split.
  - unfold encodeDataImpl_with, encodeDataIntenal.
    destruct WriteIterator.
    + apply const_encodeDataRandomAccess.
    + apply const_encodeDataWithOutputIter.
  - reflexivity.
Qed.

(** C2 as stated does not hold: the calls of an encode of two fields of one
    byte are [write], the write of the first field and the write of the
    second one, and no [refresh()]. *)
Lemma encodeDataImpl_refreshes_once_counterexample :
  trace (snd (encodeDataImpl example_env two_bytes_msg))
  = [ev_write; ev_field_write 0; ev_field_write 1] /\
  ~ refreshes_once_before_writing
      (trace (snd (encodeDataImpl example_env two_bytes_msg))).
Proof.
  split; [reflexivity|].
  intros (before & after & Htr & _).
  assert (Hin : In ev_refresh
                   (trace (snd (encodeDataImpl example_env two_bytes_msg)))).
  { rewrite Htr. apply in_or_app. right. now left. }
  vm_compute in Hin. intuition discriminate.
Qed.

(** *** Failure of a write *)

(** The random access path gives back no bytes when the write of the fields
    reports a failure: it aborts on its [assert], or, with [NDEBUG], clears
    the data. *)
Lemma encodeDataRandomAccess_write_failure :
  forall env m len m1 data es bs m2,
    CommsBase_length m = (Ret len, m1) ->
    Vec.resize env [] len = Ret data ->
    CommsBase_write (length data) m1 = (Ret (es, bs), m2) ->
    es <> Success ->
    encodeDataRandomAccess env m
    = (if NDEBUG env then Ret [] else Abort, m2).
Proof.
  intros env m len m1 data es bs m2 Hlen Hres Hwr Hes.
  unfold encodeDataRandomAccess, encodeDataRandomAccess_body, try_catch, bind.
  rewrite Hlen. unfold lift at 1. rewrite Hres, Hwr.
  assert (Hneg : negb (ErrorStatus_eqb es Success) = true)
    by (destruct es; simpl; congruence).
  rewrite Hneg. unfold assert.
  destruct (NDEBUG env); reflexivity.
Qed.

(** When the fields are written with [Success], both paths return the bytes
    that went out. *)
Lemma resize_store : forall env data bs,
  Vec.resize env (Vec.store data 0 bs) (length bs - 0) = Ret bs.
Proof.
  intros env data bs. unfold Vec.resize, Vec.store.
  rewrite Nat.sub_0_r. cbn [firstn app Nat.add].
  destruct (Nat.leb_spec (length bs)
              (length (bs ++ skipn (length bs) data))) as [_|Hlt].
  - now rewrite firstn_app, Nat.sub_diag, firstn_all, app_nil_r.
  - rewrite length_app in Hlt. lia.
Qed.

Lemma encodeDataRandomAccess_success :
  forall env m len m1 data bs m2,
    CommsBase_length m = (Ret len, m1) ->
    Vec.resize env [] len = Ret data ->
    CommsBase_write (length data) m1 = (Ret (Success, bs), m2) ->
    encodeDataRandomAccess env m = (Ret bs, m2).
Proof.
  intros env m len m1 data bs m2 Hlen Hres Hwr.
  unfold encodeDataRandomAccess, encodeDataRandomAccess_body, try_catch, bind.
  rewrite Hlen. unfold lift at 1. rewrite Hres, Hwr.
  change (negb (ErrorStatus_eqb Success Success)) with false. cbv iota beta.
  unfold lift. now rewrite resize_store.
Qed.

Lemma encodeDataWithOutputIter_success :
  forall env m bs m2,
    CommsBase_write_back_inserter env (max_size env) [] m
    = (Ret (Success, bs), m2) ->
    encodeDataWithOutputIter env m = (Ret bs, m2).
Proof.
  intros env m bs m2 Hwr.
  unfold encodeDataWithOutputIter, bind. rewrite Hwr.
  unfold assert. simpl. now rewrite orb_true_r.
Qed.

(** C1 at a message that cannot be written: a field of one byte holding 01
    and a counted list of 256 bytes.  The write of the second field reports
    [InvalidMsgData].  [encodeDataImpl], which goes through the back
    inserter, returns the byte of the first field when [assert] is compiled
    out, and aborts when it is not; [encodeDataRandomAccess] for the same
    message returns no bytes. *)
Theorem encodeDataImpl_partial_bytes_on_failure :
  Field.obj_write (Field.mkObj Field.counted_bytes_field (repeat x00 256))
                  (max_size example_env - 1)
  = Ret (InvalidMsgData, []) /\
  fst (encodeDataImpl example_env overlong_msg) = Ret [x01] /\
  fst (encodeDataImpl example_env_debug overlong_msg) = Abort /\
  fst (encodeDataRandomAccess example_env overlong_msg) = Ret [].
Proof.
  repeat split; vm_compute; reflexivity.
Qed.

(** *** Exceptions on the random access path *)

Lemma CommsBase_length_run : forall m,
  CommsBase_length m
  = (Ret (list_sum (map Field.obj_length (fields m))),
     mkMsg (fields m) (trace m ++ [ev_length])).
Proof. reflexivity. Qed.

(** C10. [encodeDataRandomAccess] never ends by throwing.  When anything
    inside its [try] throws, it returns the empty sequence: so it does when
    the resizing of the buffer throws, and when the write of the fields
    throws. *)
Theorem encodeDataRandomAccess_catches_exceptions :
  forall (env : Env) (m : Msg),
    (forall e, fst (encodeDataRandomAccess env m) <> Throw e) /\
    (forall e m',
       encodeDataRandomAccess_body env m = (Throw e, m') ->
       encodeDataRandomAccess env m = (Ret [], m')) /\
    (forall e,
       Vec.resize env [] (list_sum (map Field.obj_length (fields m)))
       = Throw e ->
       fst (encodeDataRandomAccess env m) = Ret []) /\
    (forall data e,
       Vec.resize env [] (list_sum (map Field.obj_length (fields m)))
       = Ret data ->
       fst (CommsBase_write (length data) (snd (CommsBase_length m)))
       = Throw e ->
       fst (encodeDataRandomAccess env m) = Ret []).
Proof.
  intros env m. unfold encodeDataRandomAccess, try_catch.
  split; [|split; [|split]].
  - intros e. destruct (encodeDataRandomAccess_body env m) as [[a|e'|] m'];
      simpl; discriminate.
  - intros e m' Hbody. now rewrite Hbody.
  - intros e Hres.
    unfold encodeDataRandomAccess_body, bind.
    rewrite CommsBase_length_run. unfold lift at 1. now rewrite Hres.
  - intros data e Hres Hwr.
    unfold encodeDataRandomAccess_body, bind.
    rewrite CommsBase_length_run in *. unfold lift at 1. rewrite Hres.
    cbn [snd] in Hwr.
    destruct (CommsBase_write (length data)
                (mkMsg (fields m) (trace m ++ [ev_length])))
      as [[[es bs]|e'|] m2]; simpl in Hwr; try discriminate.
    reflexivity.
Qed.

(** A field whose write throws: the exception is caught. *)
Lemma encodeDataRandomAccess_catches_exceptions_witness :
  Vec.resize example_env []
    (list_sum (map Field.obj_length (fields throwing_msg)))
  = Ret [x00; x00] /\
  fst (CommsBase_write 2 (snd (CommsBase_length throwing_msg)))
  = Throw (other_exception 0) /\
  fst (encodeDataRandomAccess example_env throwing_msg) = Ret [].
Proof.
  split; [reflexivity|]. split; [reflexivity|].
  apply (proj2 (proj2 (proj2 (encodeDataRandomAccess_catches_exceptions
                                example_env throwing_msg)))
           [x00; x00] (other_exception 0)); reflexivity.
Defined.

(** No memory for the buffer: [resize] throws, and the exception is
    caught. *)
Example encodeDataRandomAccess_no_memory :
  fst (encodeDataRandomAccess_body example_env_no_memory two_bytes_msg)
  = Throw bad_alloc /\
  fst (encodeDataRandomAccess example_env_no_memory two_bytes_msg) = Ret [].
Proof. split; reflexivity. Qed.

(** The back inserter path has no handler: the exception of the field goes
    to the caller. *)
Example encodeDataWithOutputIter_throws :
  fst (encodeDataImpl example_env throwing_msg) = Throw (other_exception 0).
Proof. reflexivity. Qed.

(** *** Decoding *)

Lemma seq_S_map : forall idx k,
  ev_field_read idx :: map ev_field_read (seq (S idx) k)
  = map ev_field_read (seq idx (S k)).
Proof. reflexivity. Qed.

(** When every field reads with [Success], [read_fields] reports [Success],
    leaves the fields as the reads leave them and has read each field
    once. *)
Lemma read_fields_all : forall fs data fs',
  reads_all fs data fs' ->
  forall idx tr,
    read_fields idx fs data tr
    = (Ret Success, (fs', tr ++ map ev_field_read (seq idx (length fs)))).
Proof.
  induction 1 as [data|f f' n rest rest' data Hread Hrest IH]; intros idx tr.
  - simpl. now rewrite app_nil_r.
  - cbn [read_fields]. rewrite Hread, IH.
    rewrite <- app_assoc. reflexivity.
Qed.

(** What [read_fields] has done when it comes back. *)
Lemma read_fields_inv : forall fs idx data tr r fs' tr',
  read_fields idx fs data tr = (r, (fs', tr')) ->
  (r = Ret Success /\ reads_all fs data fs' /\
   tr' = tr ++ map ev_field_read (seq idx (length fs)))
  \/
  (r <> Ret Success /\
   exists k, reads_until_failure fs data k /\
             tr' = tr ++ map ev_field_read (seq idx (S k)) /\
             skipn (S k) fs' = skipn (S k) fs).
Proof.
  induction fs as [|f rest IH]; intros idx data tr r fs' tr' H.
  - simpl in H. inversion H; subst. left.
    repeat split; [constructor | now rewrite app_nil_r].
  - cbn [read_fields] in H.
    destruct (Field.obj_read f data) as [o f1] eqn:Hread.
    destruct o as [[es n]|e|].
    + destruct es.
      * destruct (read_fields (S idx) rest (skipn n data)
                    (tr ++ [ev_field_read idx])) as [r1 [rest1 tr1]] eqn:Hrec.
        inversion H; subst; clear H.
        destruct (IH _ _ _ _ _ _ Hrec)
          as [(Hr & Hall & Htr) | (Hr & k & Hk & Htr & Hskip)].
        -- left. repeat split; trivial.
           ++ econstructor; eassumption.
           ++ rewrite Htr, <- app_assoc. reflexivity.
        -- right. split; [assumption|]. exists (S k). repeat split.
           ++ econstructor; eassumption.
           ++ rewrite Htr, <- app_assoc. reflexivity.
           ++ exact Hskip.
      * inversion H; subst; clear H. right. split; [discriminate|].
        exists 0. repeat split.
        econstructor; [eassumption | intros; discriminate].
      * inversion H; subst; clear H. right. split; [discriminate|].
        exists 0. repeat split.
        econstructor; [eassumption | intros; discriminate].
      * inversion H; subst; clear H. right. split; [discriminate|].
        exists 0. repeat split.
        econstructor; [eassumption | intros; discriminate].
      * inversion H; subst; clear H. right. split; [discriminate|].
        exists 0. repeat split.
        econstructor; [eassumption | intros; discriminate].
    + inversion H; subst; clear H. right. split; [discriminate|].
      exists 0. repeat split.
      econstructor; [eassumption | intros; discriminate].
    + inversion H; subst; clear H. right. split; [discriminate|].
      exists 0. repeat split.
      econstructor; [eassumption | intros; discriminate].
Qed.

Lemma decode_events_quiet : forall k,
  Forall (fun e => is_refresh e = false /\ is_valid e = false)
         (decode_events k).
Proof.
  intros k. unfold decode_events. constructor; [split; reflexivity|].
  apply Forall_forall. intros e He.
  apply in_map_iff in He. destruct He as (i & <- & _). split; reflexivity.
Qed.

(** [decodeDataImpl] is [CommsBase::read] over the whole of [data],
    compared with [Success]. *)
Lemma decodeDataImpl_read_fields : forall data m r fs' tr',
  read_fields 0 (fields m) data (trace m ++ [ev_read]) = (r, (fs', tr')) ->
  snd (decodeDataImpl data m) = mkMsg fs' tr' /\
  (fst (decodeDataImpl data m) = Ret true <-> r = Ret Success).
Proof.
  intros data m r fs' tr' Hrf.
  unfold decodeDataImpl, decodeDataImpl_with, decodeDataRandomAccess,
    decodeDataRandomAccessInternal, declared_ReadIterator,
    decodeDataRandomAccessWithIter, bind, CommsBase_read.
  rewrite firstn_all, Hrf.
  destruct r as [es|e|]; simpl; (split; [reflexivity|]).
  - destruct es; simpl; split; congruence.
  - split; discriminate.
  - split; discriminate.
Qed.

(** C5. [decodeDataImpl] returns true exactly when every field, read in
    declared order from the input, reports [Success]; the fields are then
    as the reads have left them.  Otherwise it has read the fields up to
    the first one whose read does not report [Success] and no field after
    it.  Either way it has called [read] and nothing else: no [refresh()],
    no [valid()]. *)
Theorem decodeDataImpl_true_iff_all_fields_read :
  forall (data : DataSeq) (m : Msg),
    (fst (decodeDataImpl data m) = Ret true <->
     exists fs', reads_all (fields m) data fs') /\
    (fst (decodeDataImpl data m) = Ret true ->
     reads_all (fields m) data (fields (snd (decodeDataImpl data m))) /\
     trace (snd (decodeDataImpl data m))
     = trace m ++ decode_events (length (fields m))) /\
    (fst (decodeDataImpl data m) <> Ret true ->
     exists k,
       reads_until_failure (fields m) data k /\
       trace (snd (decodeDataImpl data m)) = trace m ++ decode_events (S k) /\
       skipn (S k) (fields (snd (decodeDataImpl data m)))
       = skipn (S k) (fields m)) /\
    (exists evs,
       trace (snd (decodeDataImpl data m)) = trace m ++ evs /\
       Forall (fun e => is_refresh e = false /\ is_valid e = false) evs).
Proof.
  intros data m.
  destruct (read_fields 0 (fields m) data (trace m ++ [ev_read]))
    as [r [fs' tr']] eqn:Hrf.
  destruct (decodeDataImpl_read_fields data m r fs' tr' Hrf) as [Hsnd Hfst].
  rewrite Hsnd. cbn [fields trace].
  destruct (read_fields_inv _ _ _ _ _ _ _ Hrf)
    as [(Hr & Hall & ->) | (Hr & k & Hk & -> & Hskip)].
  - (* every read has succeeded *)
    rewrite <- app_assoc. change ([ev_read] ++ ?l) with (ev_read :: l).
    fold (decode_events (length (fields m))).
    split; [|split; [|split]].
    + split; [intros _; now exists fs' | intros _; now apply Hfst].
    + intros _. now split.
    + intros Hne. elim Hne. now apply Hfst.
    + exists (decode_events (length (fields m))).
      split; [reflexivity | apply decode_events_quiet].
  - (* the read of field [k] has not *)
    rewrite <- app_assoc. change ([ev_read] ++ ?l) with (ev_read :: l).
    fold (decode_events (S k)).
    assert (Hfalse : fst (decodeDataImpl data m) <> Ret true)
      by (intros Htrue; now apply Hr, Hfst).
    split; [|split; [|split]].
    + split; [intros Htrue; now elim Hfalse|].
      intros (fs'' & Hall).
      rewrite (read_fields_all _ _ _ Hall) in Hrf. inversion Hrf; subst.
      now elim Hr.
    + intros Htrue. now elim Hfalse.
    + intros _. exists k. now repeat split.
    + exists (decode_events (S k)).
      split; [reflexivity | apply decode_events_quiet].
Qed.

(** Two fields of one byte and three bytes of input: both fields are read,
    the third byte is left. *)
Example decodeDataImpl_two_bytes :
  fst (decodeDataImpl [x05; x06; x07] two_bytes_msg) = Ret true /\
  map Field.obj_length
      (fields (snd (decodeDataImpl [x05; x06; x07] two_bytes_msg)))
  = [1; 1] /\
  trace (snd (decodeDataImpl [x05; x06; x07] two_bytes_msg))
  = [ev_read; ev_field_read 0; ev_field_read 1].
Proof. repeat split. Qed.

(** One byte of input: the second field has nothing to read. *)
Example decodeDataImpl_one_byte :
  fst (decodeDataImpl [x05] two_bytes_msg) = Ret false /\
  reads_until_failure (fields two_bytes_msg) [x05] 1.
Proof.
  split; [reflexivity|].
  eapply fails_later; [reflexivity|].
  eapply fails_here; [reflexivity|]. intros n. discriminate.
Qed.

(** A decode that returns true can leave a message that is not valid. *)
Example decodeDataImpl_true_not_valid :
  fst (decodeDataImpl [xff] small_msg) = Ret true /\
  fst (isValidImpl (snd (decodeDataImpl [xff] small_msg))) = Ret false.
Proof. split; reflexivity. Qed.

End MessageFacts.

(** ** More of Tuple.h *)

Module TupleMore.
Import Tuple.

Section WithUniverse.
Variable U : Type.
Variable El : U -> Type.

Lemma combine_seq_fst : forall (A : Type) (l : list A) i,
  map fst (combine (seq i (length l)) l) = seq i (length l).
Proof.
  induction l as [|a l IH]; intros i; simpl; [reflexivity|].
  now rewrite IH.
Qed.

Lemma combine_seq_snd : forall (A : Type) (l : list A) i,
  map snd (combine (seq i (length l)) l) = l.
Proof.
  induction l as [|a l IH]; intros i; simpl; [reflexivity|].
  now rewrite IH.
Qed.

Section Indexed.
Variable St : Type.
Variable func : TFuncIdx El St.

Lemma forEachWithIdx_from_all : forall ts (t : tuple El ts) i s,
  forEachWithIdx_from (length ts) i func t s = (t, s).
Proof.
  induction t; intros i s; simpl; auto.
  now rewrite IHt.
Qed.

(** One call at index [k], with [k] as second argument, takes the
    iteration from [k] to [S k]. *)
Lemma call_at_idx_step : forall ts (t : tuple El ts) k i s,
  k < length ts ->
  exists t' s',
    call_at k (fun u x => func u x (i + k)) t s = Some (t', s') /\
    forEachWithIdx_from k i func t s
    = forEachWithIdx_from (S k) i func t' s'.
Proof.
  induction t as [|u us x r IH]; intros k i s Hk; simpl in Hk.
  - lia.
  - destruct k as [|k].
    + simpl. rewrite Nat.add_0_r.
      destruct (func u x i s) as [x' s1].
      exists (tcons u x' r), s1. split; [reflexivity|].
      destruct r; simpl; reflexivity.
    + destruct (IH k (S i) s) as (r' & s' & Hc & Hf); [lia|].
      exists (tcons u x r'), s'. split.
      * simpl. rewrite Nat.add_succ_r.
        change (S (i + k)) with (S i + k). now rewrite Hc.
      * change (forEachWithIdx_from (S k) i func (tcons u x r) s)
          with (let '(r0, s0) := forEachWithIdx_from k (S i) func r s in
                (tcons u x r0, s0)).
        change (forEachWithIdx_from (S (S k)) i func (tcons u x r') s')
          with (let '(r0, s0) :=
                  forEachWithIdx_from (S k) (S i) func r' s' in
                (tcons u x r0, s0)).
        now rewrite Hf.
Qed.

Lemma TupleForEachWithIdxHelper_exec_from :
  forall TRem ts (t : tuple El ts) s,
    TRem <= length ts ->
    TupleForEachWithIdxHelper_exec TRem func t s
    = Some (forEachWithIdx_from (length ts - TRem) 0 func t s).
Proof.
  induction TRem as [|TRem IH]; intros ts t s Hle.
  - simpl. now rewrite Nat.sub_0_r, forEachWithIdx_from_all.
  - cbn [TupleForEachWithIdxHelper_exec]. unfold tuple_size.
    destruct (Nat.leb_spec (S TRem) (length ts)) as [_|]; [|lia].
    destruct (@call_at_idx_step ts t (length ts - S TRem) 0 s)
      as (t' & s' & Hc & Hf); [lia|].
    cbn [Nat.add] in Hc. cbv zeta.
    rewrite Hc, Hf, IH by lia.
    do 2 f_equal. lia.
Qed.

Lemma tupleForEachWithIdx_spec : forall ts (t : tuple El ts) s,
  tupleForEachWithIdx func t s = Some (forEachWithIdx_spec 0 func t s).
Proof.
  intros. unfold tupleForEachWithIdx, tuple_size.
  rewrite TupleForEachWithIdxHelper_exec_from by lia.
  now rewrite Nat.sub_diag.
Qed.

Lemma forEachWithIdx_spec_logging : forall ts (t : tuple El ts) i s log,
  forEachWithIdx_spec i (logging_idx func) t (s, log)
  = (fst (forEachWithIdx_spec i func t s),
     (snd (forEachWithIdx_spec i func t s),
      log ++ combine (seq i (length ts)) (to_list t))).
Proof.
  induction t as [|u us x r IH]; intros i s log; simpl.
  - now rewrite app_nil_r.
  - unfold logging_idx at 1; simpl.
    destruct (func u x i s) as [x' s1].
    rewrite IH.
    destruct (forEachWithIdx_spec (S i) func r s1) as [r' s2]; simpl.
    now rewrite <- app_assoc.
Qed.

End Indexed.

(** X1. [tupleForEachWithIdx] is well formed for every tuple and does what
    plain iteration with a position counter does.  A functor that logs its
    calls has been called, when it returns, once for every element, in
    declared order, each time with the index of the element: the indices
    of the log are 0 ... K-1 and its elements are those of the tuple. *)
Theorem tupleForEachWithIdx_passes_each_index :
  forall (St : Type) (func : TFuncIdx El St) ts (t : tuple El ts) (s : St),
    tupleForEachWithIdx func t s = Some (forEachWithIdx_spec 0 func t s) /\
    exists log,
      tupleForEachWithIdx (logging_idx func) t (s, [])
      = Some (fst (forEachWithIdx_spec 0 func t s),
              (snd (forEachWithIdx_spec 0 func t s), log)) /\
      map fst log = seq 0 (tuple_size t) /\
      map snd log = to_list t.
Proof.
  intros St func ts t s. split.
  - apply tupleForEachWithIdx_spec.
  - exists (combine (seq 0 (length ts)) (to_list t)).
    rewrite tupleForEachWithIdx_spec, forEachWithIdx_spec_logging.
    split; [reflexivity|].
    assert (Hl : length ts = length (to_list t))
      by (symmetry; apply (TupleFacts.to_list_length U El ts t)).
    unfold tuple_size. rewrite Hl.
    split; [apply combine_seq_fst | apply combine_seq_snd].
Qed.

Lemma TemplateParamIdx_exec_WithIdx :
  forall (St : Type) (func : TFuncTemplateIdx El St) TRem ts
         (t : tuple El ts) s,
    TupleForEachWithTemplateParamIdxHelper_exec TRem func t s
    = TupleForEachWithIdxHelper_exec TRem
        (fun u x Idx => func Idx u x) t s.
Proof.
  intros St func. induction TRem as [|TRem IH]; intros ts t s.
  - reflexivity.
  - cbn [TupleForEachWithTemplateParamIdxHelper_exec
           TupleForEachWithIdxHelper_exec]. cbv zeta.
    destruct (S TRem <=? tuple_size t); [|reflexivity].
    change (fun (u : U) (x : El u) =>
              (fun (u0 : U) (x0 : El u0) (Idx : nat) => func Idx u0 x0)
                u x (tuple_size t - S TRem))
      with (func (tuple_size t - S TRem)).
    destruct (call_at (tuple_size t - S TRem)
                (func (tuple_size t - S TRem)) t s) as [[t' s']|];
      [apply IH | reflexivity].
Qed.

(** X2. [tupleForEachWithTemplateParamIdx] is well formed for every tuple
    and calls [operator()<Idx>] once for every element, in declared order,
    with the index of the element as template argument: it does what plain
    iteration with a position counter does, and what
    [tupleForEachWithIdx] does for the functor that takes the index as an
    ordinary argument. *)
Theorem tupleForEachWithTemplateParamIdx_passes_each_index :
  forall (St : Type) (func : TFuncTemplateIdx El St) ts (t : tuple El ts)
         (s : St),
    tupleForEachWithTemplateParamIdx func t s
    = Some (forEachWithIdx_spec 0 (fun u x Idx => func Idx u x) t s) /\
    tupleForEachWithTemplateParamIdx func t s
    = tupleForEachWithIdx (fun u x Idx => func Idx u x) t s.
Proof.
  intros St func ts t s.
  assert (H : tupleForEachWithTemplateParamIdx func t s
              = tupleForEachWithIdx (fun u x Idx => func Idx u x) t s)
    by apply TemplateParamIdx_exec_WithIdx.
  split; [|exact H].
  rewrite H. apply tupleForEachWithIdx_spec.
Qed.

Section Accumulate.
Variable St : Type.
Variable VU : Type.
Variable Val : VU -> Type.
Variable convert : forall from to : VU, Val from -> Val to.
Variable func : TAccFunc El St Val.

Lemma accumulate_from_all : forall ts (t : tuple El ts) TValue value s,
  accumulate_from convert (length ts) func t TValue value s
  = (value, (t, s)).
Proof.
  induction t as [|u us x r IH]; intros TValue value s; simpl.
  - reflexivity.
  - now rewrite IH.
Qed.

(** One call at index [k] takes the fold from [k] to [S k]: the rest goes
    on in the type of the result of the call, and what it gives is
    converted back. *)
Lemma accumulate_at_step : forall ts (t : tuple El ts) k TValue value s,
  k < length ts ->
  exists R value' t' s',
    accumulate_at k func t TValue value s
    = Some (existT _ R (value', (t', s'))) /\
    accumulate_from convert k func t TValue value s
    = (convert R TValue
         (fst (accumulate_from convert (S k) func t' R value' s')),
       snd (accumulate_from convert (S k) func t' R value' s')).
Proof.
  induction t as [|u us x r IH]; intros k TValue value s Hk; simpl in Hk.
  - lia.
  - destruct k as [|k].
    + simpl.
      destruct (call func TValue u value x s) as [[value1 x'] s1].
      exists (result_type func TValue u), value1, (tcons u x' r), s1.
      split; [reflexivity|].
      replace (accumulate_from convert 0 func r
                 (result_type func TValue u) value1 s1)
        with (accumulate_spec convert func r
                (result_type func TValue u) value1 s1)
        by (destruct r; reflexivity).
      destruct (accumulate_spec convert func r
                  (result_type func TValue u) value1 s1)
        as [value2 [r' s2]].
      reflexivity.
    + destruct (IH k TValue value s) as (R & value' & r' & s' & Hc & Hf);
        [lia|].
      exists R, value', (tcons u x r'), s'. split.
      * simpl. now rewrite Hc.
      * change (accumulate_from convert (S k) func (tcons u x r)
                  TValue value s)
          with (let '(v0, (r0, s0)) :=
                  accumulate_from convert k func r TValue value s in
                (v0, (tcons u x r0, s0))).
        change (accumulate_from convert (S (S k)) func (tcons u x r')
                  R value' s')
          with (let '(v0, (r0, s0)) :=
                  accumulate_from convert (S k) func r' R value' s' in
                (v0, (tcons u x r0, s0))).
        rewrite Hf.
        destruct (accumulate_from convert (S k) func r' R value' s')
          as [v0 [r0 s0]].
        reflexivity.
Qed.

Lemma TupleAccumulateHelper_exec_from :
  forall TRem ts (t : tuple El ts) TValue value s,
    TRem <= length ts ->
    TupleAccumulateHelper_exec convert TRem func t TValue value s
    = Some (accumulate_from convert (length ts - TRem) func t TValue
              value s).
Proof.
  induction TRem as [|TRem IH]; intros ts t TValue value s Hle.
  - simpl. now rewrite Nat.sub_0_r, accumulate_from_all.
  - cbn [TupleAccumulateHelper_exec]. unfold tuple_size.
    destruct (Nat.leb_spec (S TRem) (length ts)) as [_|]; [|lia].
    destruct (@accumulate_at_step ts t (length ts - S TRem) TValue value s)
      as (R & value' & t' & s' & Hc & Hf); [lia|].
    cbv zeta. rewrite Hc, Hf, IH by lia.
    replace (length ts - TRem) with (S (length ts - S TRem)) by lia.
    destruct (accumulate_from convert (S (length ts - S TRem)) func t' R
                value' s') as [v0 [t0 s0]].
    reflexivity.
Qed.

Lemma tupleAccumulate_accumulate_spec :
  forall ts (t : tuple El ts) TValue value s,
    tupleAccumulate convert func t TValue value s
    = Some (accumulate_spec convert func t TValue value s).
Proof.
  intros ts t TValue value s. unfold tupleAccumulate, tuple_size.
  rewrite TupleAccumulateHelper_exec_from by lia.
  now rewrite Nat.sub_diag.
Qed.

End Accumulate.

Section SameType.
Variable St : Type.
Variable VU : Type.
Variable Val : VU -> Type.
Variable convert : forall from to : VU, Val from -> Val to.
Hypothesis convert_same : forall (V : VU) (v : Val V), convert V V v = v.

Lemma accumulate_spec_pure :
  forall (f : forall TValue : VU, Val TValue -> elem El -> Val TValue)
         ts (t : tuple El ts) TValue value (s : St),
    accumulate_spec convert (pure_acc St Val f) t TValue value s
    = (fold_left (f TValue) (to_list t) value, (t, s)).
Proof.
  intros f. induction t as [|u us x r IH]; intros TValue value s; simpl.
  - reflexivity.
  - rewrite IH. simpl. now rewrite convert_same.
Qed.

Lemma accumulate_spec_widening :
  forall (R : VU) (f : forall TValue : VU, Val TValue -> elem El -> Val R)
         ts (t : tuple El ts) u x TValue value (s : St),
    accumulate_spec convert (widening_acc St Val R f) (tcons u x t)
      TValue value s
    = (convert R TValue
         (fold_left (f R) (to_list t) (f TValue value (existT El u x))),
       (tcons u x t, s)).
Proof.
  intros R f ts t u x TValue value s.
  assert (Hrest : forall ts (t : tuple El ts) (v : Val R) s,
             accumulate_spec convert (widening_acc St Val R f) t R v s
             = (fold_left (f R) (to_list t) v, (t, s))).
  { intros ts0 t0.
    induction t0 as [|u0 us0 x0 r0 IH]; intros v s0; simpl.
    - reflexivity.
    - rewrite IH. simpl. now rewrite convert_same. }
  simpl. now rewrite Hrest.
Qed.

Lemma accumulate_spec_same_type_cat :
  forall (g : forall (TValue : VU) (u : U),
             Val TValue -> El u -> St -> (Val TValue * El u) * St)
         ts1 ts2 (a : tuple El ts1) (b : tuple El ts2) TValue value s,
    accumulate_spec convert (same_type_acc El Val g) (tuple_cat a b)
      TValue value s
    = let '(value1, (a', s1)) :=
        accumulate_spec convert (same_type_acc El Val g) a TValue value s in
      let '(value2, (b', s2)) :=
        accumulate_spec convert (same_type_acc El Val g) b TValue value1 s1
      in
      (value2, (tuple_cat a' b', s2)).
Proof.
  intros g ts1 ts2.
  induction a as [|u us x r IH]; intros b TValue value s; simpl.
  - destruct (accumulate_spec convert (same_type_acc El Val g) b TValue
                value s) as [value2 [b' s2]].
    reflexivity.
  - destruct (g TValue u value x s) as [[value1 x'] s1].
    rewrite IH.
    destruct (accumulate_spec convert (same_type_acc El Val g) r TValue
                value1 s1) as [value2 [r' s2]].
    simpl. rewrite convert_same.
    destruct (accumulate_spec convert (same_type_acc El Val g) b TValue
                value2 s2) as [value3 [b' s3]].
    simpl. now rewrite convert_same.
Qed.

(** X3. [tupleAccumulate] is well formed for every tuple and folds over
    the elements in declared order, begun with the value given; each level
    goes on in the type its call returns, and its result is converted to
    the type of the level above on return.  For a functor whose result has
    the type of the value it is given, that is the left fold
    [f (... (f (f value e0) e1) ...) eK-1], and the tuple is left as it
    is.  For a functor whose result has another type [R], the fold goes on
    in [R] from the first call on and is converted to the type of [value]
    once, at the end. *)
Theorem tupleAccumulate_is_left_fold :
  forall ts (t : tuple El ts) TValue (value : Val TValue) (s : St),
    (forall func : TAccFunc El St Val,
       tupleAccumulate convert func t TValue value s
       = Some (accumulate_spec convert func t TValue value s)) /\
    (forall f : forall V : VU, Val V -> elem El -> Val V,
       tupleAccumulate convert (pure_acc St Val f) t TValue value s
       = Some (fold_left (f TValue) (to_list t) value, (t, s))) /\
    (forall (R : VU) (f : forall V : VU, Val V -> elem El -> Val R) u x,
       tupleAccumulate convert (widening_acc St Val R f) (tcons u x t)
         TValue value s
       = Some (convert R TValue
                 (fold_left (f R) (to_list t)
                    (f TValue value (existT El u x))),
               (tcons u x t, s))).
Proof.
  intros ts t TValue value s. split; [|split].
  - intros func. apply tupleAccumulate_accumulate_spec.
  - intros f.
    now rewrite tupleAccumulate_accumulate_spec, accumulate_spec_pure.
  - intros R f u x.
    now rewrite tupleAccumulate_accumulate_spec, accumulate_spec_widening.
Qed.

(** X4. For a functor whose result has the type of the value it is given,
    accumulating over [std::tuple_cat(a, b)] is accumulating over [a] and
    then, from the value reached, over [b]. *)
Theorem tupleAccumulate_tuple_cat :
  forall (g : forall (V : VU) (u : U),
             Val V -> El u -> St -> (Val V * El u) * St)
         ts1 ts2 (a : tuple El ts1) (b : tuple El ts2)
         TValue (value : Val TValue) (s : St),
    exists value1 a' s1 value2 b' s2,
      tupleAccumulate convert (same_type_acc El Val g) a TValue value s
      = Some (value1, (a', s1)) /\
      tupleAccumulate convert (same_type_acc El Val g) b TValue value1 s1
      = Some (value2, (b', s2)) /\
      tupleAccumulate convert (same_type_acc El Val g) (tuple_cat a b)
        TValue value s
      = Some (value2, (tuple_cat a' b', s2)).
Proof.
  intros g ts1 ts2 a b TValue value s.
  rewrite !tupleAccumulate_accumulate_spec, accumulate_spec_same_type_cat.
  destruct (accumulate_spec convert (same_type_acc El Val g) a TValue
              value s) as [value1 [a' s1]].
  exists value1, a', s1.
  rewrite tupleAccumulate_accumulate_spec.
  destruct (accumulate_spec convert (same_type_acc El Val g) b TValue
              value1 s1) as [value2 [b' s2]].
  exists value2, b', s2. repeat split.
Qed.

End SameType.

Lemma forEach_spec_cat :
  forall (St : Type) (func : TFunc El St)
         ts1 ts2 (a : tuple El ts1) (b : tuple El ts2) s,
    forEach_spec func (tuple_cat a b) s
    = let '(a', s1) := forEach_spec func a s in
      let '(b', s2) := forEach_spec func b s1 in
      (tuple_cat a' b', s2).
Proof.
  intros St func ts1 ts2.
  induction a as [|u us x r IH]; intros b s; simpl.
  - destruct (forEach_spec func b s) as [b' s2]. reflexivity.
  - destruct (func u x s) as [x' s1].
    rewrite IH.
    destruct (forEach_spec func r s1) as [r' s2].
    destruct (forEach_spec func b s2) as [b' s3].
    reflexivity.
Qed.

(** X5. [tupleForEach] over [std::tuple_cat(a, b)] is [tupleForEach] over
    [a] followed by [tupleForEach] over [b]. *)
Theorem tupleForEach_tuple_cat :
  forall (St : Type) (func : TFunc El St)
         ts1 ts2 (a : tuple El ts1) (b : tuple El ts2) (s : St),
    exists a' s1 b' s2,
      tupleForEach func a s = Some (a', s1) /\
      tupleForEach func b s1 = Some (b', s2) /\
      tupleForEach func (tuple_cat a b) s = Some (tuple_cat a' b', s2).
Proof.
  intros St func ts1 ts2 a b s.
  rewrite !TupleFacts.tupleForEach_forEach_spec, forEach_spec_cat.
  destruct (forEach_spec func a s) as [a' s1].
  exists a', s1.
  rewrite TupleFacts.tupleForEach_forEach_spec.
  destruct (forEach_spec func b s1) as [b' s2].
  exists b', s2. repeat split.
Qed.

End WithUniverse.

Section TypeLevel.
Variable U : Type.
Variable is_same : U -> U -> bool.
Hypothesis is_same_spec : forall a b, is_same a b = true <-> a = b.

Lemma IsInTuple_Value_In : forall T TArgs,
  IsInTuple_Value is_same T TArgs = true <-> In T TArgs.
Proof.
  intros T. induction TArgs as [|TFirst TRest IH]; simpl.
  - split; [discriminate | tauto].
  - rewrite orb_true_iff, IH, is_same_spec.
    split; intros [H|H]; auto.
Qed.

Lemma TupleIsUnique_Value_NoDup : forall TArgs,
  TupleIsUnique_Value is_same TArgs = true <-> NoDup TArgs.
Proof.
  induction TArgs as [|TFirst TRest IH]; simpl.
  - split; [constructor | reflexivity].
  - rewrite andb_true_iff, negb_true_iff, IH. split.
    + intros [Hn Hu]. constructor; [|assumption].
      intros Hin. apply IsInTuple_Value_In in Hin. congruence.
    + intros Hnd. inversion Hnd as [|? ? Hnin Hu]; subst. split; [|assumption].
      destruct (IsInTuple_Value is_same TFirst TRest) eqn:E; [|reflexivity].
      apply IsInTuple_Value_In in E. contradiction.
Qed.

(** X6. [IsInTuple<T, std::tuple<TArgs...> >::Value] is true exactly when
    [T] is one of [TArgs...]; for a second argument that is not a tuple
    the template does not compile. *)
Theorem IsInTuple_is_membership :
  forall (T : U) (TArgs : list U) (X : U),
    (IsInTuple is_same T (std_tuple TArgs) = Some true <-> In T TArgs) /\
    (IsInTuple is_same T (std_tuple TArgs) = Some false <-> ~ In T TArgs) /\
    IsInTuple is_same T (other_type X) = None.
Proof.
  intros T TArgs X. simpl. repeat split.
  - intros H. apply IsInTuple_Value_In. congruence.
  - intros H. apply IsInTuple_Value_In in H. congruence.
  - intros H Hin. apply IsInTuple_Value_In in Hin. congruence.
  - intros H. destruct (IsInTuple_Value is_same T TArgs) eqn:E;
      [|reflexivity].
    apply IsInTuple_Value_In in E. contradiction.
Qed.

(** X7. [TupleIsUnique<std::tuple<TArgs...> >::Value] is true exactly when
    no type occurs twice among [TArgs...]; so it is the same for every
    order of the same types. *)
Theorem TupleIsUnique_is_NoDup :
  forall TArgs : list U,
    (TupleIsUnique is_same (std_tuple TArgs) = Some true <-> NoDup TArgs) /\
    (forall TArgs',
       Permutation TArgs TArgs' ->
       TupleIsUnique is_same (std_tuple TArgs')
       = TupleIsUnique is_same (std_tuple TArgs)).
Proof.
  intros TArgs. split.
  - simpl. split; intros H.
    + apply TupleIsUnique_Value_NoDup. congruence.
    + apply TupleIsUnique_Value_NoDup in H. congruence.
  - intros TArgs' HP. simpl. f_equal.
    apply eq_true_iff_eq. rewrite !TupleIsUnique_Value_NoDup.
    split; apply Permutation_NoDup; [now symmetry | assumption].
Qed.

(** X8. [TupleCat] of two tuples is the tuple of the types of the first
    followed by those of the second, and is not defined for anything else.
    A type is in the concatenation exactly when it is in one of the two,
    and the concatenation is unique exactly when both tuples are unique
    and have no type in common. *)
Theorem TupleCat_membership_and_uniqueness :
  forall TArgs1 TArgs2 : list U,
    TupleCat (std_tuple TArgs1) (std_tuple TArgs2)
    = Some (std_tuple (TArgs1 ++ TArgs2)) /\
    (forall (X : U) (TTuple : TypeArg U),
       TupleCat (other_type X) TTuple = None /\
       TupleCat TTuple (other_type X) = None) /\
    (forall T,
       IsInTuple_Value is_same T (TArgs1 ++ TArgs2)
       = IsInTuple_Value is_same T TArgs1
         || IsInTuple_Value is_same T TArgs2) /\
    (TupleIsUnique_Value is_same (TArgs1 ++ TArgs2) = true <->
     TupleIsUnique_Value is_same TArgs1 = true /\
     TupleIsUnique_Value is_same TArgs2 = true /\
     forall T,
       IsInTuple_Value is_same T TArgs1 = true ->
       IsInTuple_Value is_same T TArgs2 = false).
Proof.
  intros TArgs1 TArgs2. split; [reflexivity|]. split; [|split].
  - intros X TTuple. split; [reflexivity|]. destruct TTuple; reflexivity.
  - intros T. induction TArgs1 as [|TFirst TRest IH]; simpl.
    + reflexivity.
    + now rewrite IH, orb_assoc.
  - rewrite !TupleIsUnique_Value_NoDup. split.
    + intros Hnd. split; [|split].
      * eapply NoDup_app_remove_r; eassumption.
      * eapply NoDup_app_remove_l; eassumption.
      * intros T H1. apply IsInTuple_Value_In in H1.
        destruct (IsInTuple_Value is_same T TArgs2) eqn:E; [|reflexivity].
        apply IsInTuple_Value_In in E. exfalso.
        revert Hnd H1 E. clear. induction TArgs1 as [|a l IH]; simpl.
        -- tauto.
        -- intros Hnd [->|Hin] E.
           ++ inversion Hnd as [|? ? Hnin _]; subst.
              apply Hnin, in_or_app. now right.
           ++ inversion Hnd; subst. now apply IH.
    + intros (H1 & H2 & Hdis).
      induction TArgs1 as [|a l IH]; simpl; [assumption|].
      inversion H1 as [|? ? Hnin Hl]; subst. constructor.
      * intros Hin. apply in_app_or in Hin. destruct Hin as [Hin|Hin].
        -- contradiction.
        -- assert (Ha : IsInTuple_Value is_same a (a :: l) = true)
             by (apply IsInTuple_Value_In; now left).
           apply Hdis in Ha. apply IsInTuple_Value_In in Hin. congruence.
      * apply IH; [assumption|].
        intros T HT. apply Hdis. simpl. rewrite HT. apply orb_true_r.
Qed.

End TypeLevel.

Lemma example_is_same_spec : forall a b,
  example_is_same a b = true <-> a = b.
Proof.
  intros [] []; simpl; split; congruence.
Qed.

Example tupleForEachWithIdx_example :
  tupleForEachWithIdx example_func_idx example_tuple []
  = Some (example_tuple, [(0, 3); (1, 1); (2, 5)]).
Proof. reflexivity. Qed.

Lemma example_convert_same : forall (V : ExampleValueType) (v : ExampleVal V),
  example_convert V V v = v.
Proof. intros [] v; reflexivity. Qed.

Lemma tupleAccumulate_is_left_fold_witness :
  tupleAccumulate example_convert (pure_acc unit ExampleVal example_add)
    example_tuple_a v_uint8_t 0 tt
  = Some (fold_left (example_add v_uint8_t) (to_list example_tuple_a) 0,
          (example_tuple_a, tt)).
Proof.
  apply (tupleAccumulate_is_left_fold ExampleType ExampleEl unit
           ExampleValueType ExampleVal example_convert example_convert_same
           _ example_tuple_a v_uint8_t 0 tt).
Defined.

(** 100 and 200 added to an [std::uint8_t] of 0 give 44, by a functor that
    adds in the type of the value and by one that adds as [int]; added to
    an [int] of 0 they give 300. *)
Example tupleAccumulate_example :
  tupleAccumulate example_convert (pure_acc unit ExampleVal example_add)
    example_tuple_a v_uint8_t 0 tt = Some (44, (example_tuple_a, tt)) /\
  tupleAccumulate example_convert
    (widening_acc unit ExampleVal v_int example_add_int)
    example_tuple_a v_uint8_t 0 tt = Some (44, (example_tuple_a, tt)) /\
  tupleAccumulate example_convert
    (widening_acc unit ExampleVal v_int example_add_int)
    example_tuple_a v_int 0 tt = Some (300, (example_tuple_a, tt)).
Proof. repeat split. Qed.

Lemma tupleAccumulate_tuple_cat_witness :
  exists value1 a' s1 value2 b' s2,
    tupleAccumulate example_convert
      (same_type_acc ExampleEl ExampleVal
         (fun V u value x s => ((example_add V value (existT _ u x), x), s)))
      example_tuple_b v_uint8_t 0 tt = Some (value1, (a', s1)) /\
    tupleAccumulate example_convert
      (same_type_acc ExampleEl ExampleVal
         (fun V u value x s => ((example_add V value (existT _ u x), x), s)))
      example_tuple_c v_uint8_t value1 s1 = Some (value2, (b', s2)) /\
    tupleAccumulate example_convert
      (same_type_acc ExampleEl ExampleVal
         (fun V u value x s => ((example_add V value (existT _ u x), x), s)))
      (tuple_cat example_tuple_b example_tuple_c) v_uint8_t 0 tt
    = Some (value2, (tuple_cat a' b', s2)).
Proof.
  apply (tupleAccumulate_tuple_cat ExampleType ExampleEl unit
           ExampleValueType ExampleVal example_convert example_convert_same).
Defined.

(** For a functor with a result of another type the split does not hold:
    the larger of 300 and 100 taken as [int] from an [std::uint8_t] of 0 is
    44 over the whole, and 100 when the value goes through
    [std::uint8_t] between the two parts. *)
Example tupleAccumulate_tuple_cat_widening :
  tupleAccumulate example_convert
    (widening_acc unit ExampleVal v_int example_max_int)
    (tuple_cat example_tuple_b example_tuple_c) v_uint8_t 0 tt
  = Some (44, (tuple_cat example_tuple_b example_tuple_c, tt)) /\
  tupleAccumulate example_convert
    (widening_acc unit ExampleVal v_int example_max_int)
    example_tuple_b v_uint8_t 0 tt = Some (44, (example_tuple_b, tt)) /\
  tupleAccumulate example_convert
    (widening_acc unit ExampleVal v_int example_max_int)
    example_tuple_c v_uint8_t 44 tt = Some (100, (example_tuple_c, tt)).
Proof. repeat split. Qed.

Lemma IsInTuple_is_membership_witness :
  IsInTuple example_is_same t_bool (std_tuple [t_unsigned; t_bool])
  = Some true <-> In t_bool [t_unsigned; t_bool].
Proof.
  apply (IsInTuple_is_membership ExampleType example_is_same
           example_is_same_spec t_bool [t_unsigned; t_bool] t_bool).
Defined.

Lemma TupleIsUnique_is_NoDup_witness :
  TupleIsUnique example_is_same (std_tuple [t_unsigned; t_bool])
  = Some true <-> NoDup [t_unsigned; t_bool].
Proof.
  apply (TupleIsUnique_is_NoDup ExampleType example_is_same
           example_is_same_spec [t_unsigned; t_bool]).
Defined.

Lemma TupleCat_membership_and_uniqueness_witness :
  TupleCat (std_tuple [t_unsigned]) (std_tuple [t_bool])
  = Some (std_tuple ([t_unsigned] ++ [t_bool])).
Proof.
  apply (TupleCat_membership_and_uniqueness ExampleType example_is_same
           example_is_same_spec [t_unsigned] [t_bool]).
Defined.

(** The example tuple has [unsigned] twice. *)
Example TupleIsUnique_example :
  TupleIsUnique example_is_same (std_tuple [t_unsigned; t_bool; t_unsigned])
  = Some false /\
  TupleIsUnique example_is_same (std_tuple [t_bool; t_unsigned]) = Some true.
Proof. split; reflexivity. Qed.

End TupleMore.

(** ** More of BitmaskValueBase.h *)

Module BitmaskMore.
Import Bitmask.

Section WithTypes.
Variable Initialiser Validator : Type.
Variable SizeToType : nat -> bool -> CType.

(** X9. Of several options of one kind the first one counts: the length
    and the value type are those of the first [FixedLength] option (the 8
    bytes of [long long unsigned] when there is none), and the initialiser
    and validator types are those of the first option that names one. *)
Theorem BitmaskValueBase_first_option_wins :
  forall TOptions : list (TOption Initialiser Validator),
    SerialisedLen (BitmaskValueBase SizeToType TOptions)
    = match first_FixedLength TOptions with
      | Some TLen => TLen
      | None => 8
      end /\
    ValueType (BitmaskValueBase SizeToType TOptions)
    = match first_FixedLength TOptions with
      | Some TLen => SizeToType TLen false
      | None => long_long_unsigned
      end /\
    DefaultValueInitialiser (BitmaskValueBase SizeToType TOptions)
    = first_Initialiser TOptions /\
    ContentsValidator (BitmaskValueBase SizeToType TOptions)
    = first_Validator TOptions.
Proof.
  induction TOptions as [|o TOptions (IH1 & IH2 & IH3 & IH4)].
  - repeat split.
  - destruct o; simpl; repeat split; assumption.
Qed.

(** X10. The three flags say which kinds of option are present, however
    often and wherever in the list: so they are the same for two lists
    with the same options, in any order and with any repetition. *)
Theorem BitmaskValueBase_flags_presence :
  forall TOptions : list (TOption Initialiser Validator),
    (BitZeroIsMsb (BitmaskValueBase SizeToType TOptions) = true <->
     In option_BitIndexingStartsFromMsb TOptions) /\
    (HasCustomInitialiser (BitmaskValueBase SizeToType TOptions) = true <->
     exists T, In (option_DefaultValueInitialiser T) TOptions) /\
    (HasCustomValidator (BitmaskValueBase SizeToType TOptions) = true <->
     exists T, In (option_ContentsValidator T) TOptions) /\
    (forall TOptions' : list (TOption Initialiser Validator),
       (forall o, In o TOptions <-> In o TOptions') ->
       BitZeroIsMsb (BitmaskValueBase SizeToType TOptions)
       = BitZeroIsMsb (BitmaskValueBase SizeToType TOptions') /\
       HasCustomInitialiser (BitmaskValueBase SizeToType TOptions)
       = HasCustomInitialiser (BitmaskValueBase SizeToType TOptions') /\
       HasCustomValidator (BitmaskValueBase SizeToType TOptions)
       = HasCustomValidator (BitmaskValueBase SizeToType TOptions')).
Proof.
  assert (Hmsb : forall l : list (TOption Initialiser Validator),
             BitZeroIsMsb (BitmaskValueBase SizeToType l) = true <->
             In option_BitIndexingStartsFromMsb l).
  { induction l as [|o l IH]; simpl.
    - split; [discriminate | tauto].
    - destruct o; simpl; rewrite ?IH;
        split; intros H; auto; destruct H as [H|H]; auto; discriminate. }
  assert (Hini : forall l : list (TOption Initialiser Validator),
             HasCustomInitialiser (BitmaskValueBase SizeToType l) = true <->
             exists T, In (option_DefaultValueInitialiser T) l).
  { induction l as [|o l IH]; simpl.
    - split; [discriminate | intros [T []]].
    - destruct o; simpl; rewrite ?IH; split;
        try (intros [T0 H]; exists T0; now right);
        try (intros [T0 [H|H]]; [discriminate | now exists T0]).
      + intros _. exists T. now left.
      + reflexivity. }
  assert (Hval : forall l : list (TOption Initialiser Validator),
             HasCustomValidator (BitmaskValueBase SizeToType l) = true <->
             exists T, In (option_ContentsValidator T) l).
  { induction l as [|o l IH]; simpl.
    - split; [discriminate | intros [T []]].
    - destruct o; simpl; rewrite ?IH; split;
        try (intros [T0 H]; exists T0; now right);
        try (intros [T0 [H|H]]; [discriminate | now exists T0]).
      + intros _. exists T. now left.
      + reflexivity. }
  intros TOptions. split; [apply Hmsb|]. split; [apply Hini|].
  split; [apply Hval|].
  intros TOptions' Hsame. repeat split; apply eq_true_iff_eq.
  - rewrite !Hmsb. apply Hsame.
  - rewrite !Hini. split; intros [T H]; exists T; now apply Hsame.
  - rewrite !Hval. split; intros [T H]; exists T; now apply Hsame.
Qed.

(** X11. The members of a class agree with each other: a flag for a custom
    initialiser or validator is set exactly when the class has the typedef
    for it, and the value type is the type for the serialised length
    unless there is no [FixedLength] option, when the length is the size
    of the value type. *)
Theorem BitmaskValueBase_members_agree :
  forall TOptions : list (TOption Initialiser Validator),
    (HasCustomInitialiser (BitmaskValueBase SizeToType TOptions) = true <->
     DefaultValueInitialiser (BitmaskValueBase SizeToType TOptions)
     <> None) /\
    (HasCustomValidator (BitmaskValueBase SizeToType TOptions) = true <->
     ContentsValidator (BitmaskValueBase SizeToType TOptions) <> None) /\
    ((first_FixedLength TOptions = None /\
      SerialisedLen (BitmaskValueBase SizeToType TOptions)
      = sizeof (ValueType (BitmaskValueBase SizeToType TOptions))) \/
     ValueType (BitmaskValueBase SizeToType TOptions)
     = SizeToType (SerialisedLen (BitmaskValueBase SizeToType TOptions))
         false).
Proof.
  induction TOptions as [|o TOptions (IH1 & IH2 & IH3)].
  - simpl. repeat split; try discriminate; try congruence.
    left. split; reflexivity.
  - destruct o; simpl; repeat split; try apply IH1; try apply IH2;
      try discriminate; try reflexivity; try (now right); try assumption.
Qed.

(** An option leaves the members of the other kinds as they are, wherever
    in the list it is put. *)
Lemma BitmaskValueBase_insert_other_kinds :
  forall (l1 : list (TOption Initialiser Validator)) o l2,
    (kind o <> KFixedLength ->
     ValueType (BitmaskValueBase SizeToType (l1 ++ o :: l2))
     = ValueType (BitmaskValueBase SizeToType (l1 ++ l2)) /\
     SerialisedLen (BitmaskValueBase SizeToType (l1 ++ o :: l2))
     = SerialisedLen (BitmaskValueBase SizeToType (l1 ++ l2))) /\
    (kind o <> KBitIndexing ->
     BitZeroIsMsb (BitmaskValueBase SizeToType (l1 ++ o :: l2))
     = BitZeroIsMsb (BitmaskValueBase SizeToType (l1 ++ l2))) /\
    (kind o <> KInitialiser ->
     HasCustomInitialiser (BitmaskValueBase SizeToType (l1 ++ o :: l2))
     = HasCustomInitialiser (BitmaskValueBase SizeToType (l1 ++ l2)) /\
     DefaultValueInitialiser (BitmaskValueBase SizeToType (l1 ++ o :: l2))
     = DefaultValueInitialiser (BitmaskValueBase SizeToType (l1 ++ l2))) /\
    (kind o <> KValidator ->
     HasCustomValidator (BitmaskValueBase SizeToType (l1 ++ o :: l2))
     = HasCustomValidator (BitmaskValueBase SizeToType (l1 ++ l2)) /\
     ContentsValidator (BitmaskValueBase SizeToType (l1 ++ o :: l2))
     = ContentsValidator (BitmaskValueBase SizeToType (l1 ++ l2))).
Proof.
  induction l1 as [|a l1 IH]; intros o l2.
  - destruct o; simpl; repeat split; congruence.
  - destruct (IH o l2) as (H1 & H2 & H3 & H4).
    destruct a; simpl; repeat split;
      try reflexivity;
      try (apply H1; assumption); try (apply H2; assumption);
      try (apply H3; assumption); try (apply H4; assumption).
Qed.

Lemma Members_eq : forall m m' : Members Initialiser Validator,
  ValueType m = ValueType m' ->
  SerialisedLen m = SerialisedLen m' ->
  BitZeroIsMsb m = BitZeroIsMsb m' ->
  HasCustomInitialiser m = HasCustomInitialiser m' ->
  HasCustomValidator m = HasCustomValidator m' ->
  DefaultValueInitialiser m = DefaultValueInitialiser m' ->
  ContentsValidator m = ContentsValidator m' ->
  m = m'.
Proof.
  intros [] []; simpl; intros; subst; reflexivity.
Qed.

(** X12. An option changes only the members of its own kind, and an option
    of a kind that has come before changes nothing: it can be left out. *)
Theorem BitmaskValueBase_later_option_ignored :
  forall (l1 : list (TOption Initialiser Validator)) o l2,
    In (kind o) (map (@kind Initialiser Validator) l1) ->
    BitmaskValueBase SizeToType (l1 ++ o :: l2)
    = BitmaskValueBase SizeToType (l1 ++ l2).
Proof.
  induction l1 as [|a l1 IH]; intros o l2 Hin; simpl in Hin.
  - contradiction.
  - destruct (BitmaskValueBase_insert_other_kinds l1 o l2)
      as (H1 & H2 & H3 & H4).
    assert (Hrec : In (kind o) (map (@kind Initialiser Validator) l1) ->
                   BitmaskValueBase SizeToType (l1 ++ o :: l2)
                   = BitmaskValueBase SizeToType (l1 ++ l2))
      by (intros H; now apply IH).
    assert (Hcase : kind a = kind o \/
                    In (kind o) (map (@kind Initialiser Validator) l1))
      by tauto.
    clear Hin IH.
    destruct Hcase as [Hk|Hl1].
    + destruct a, o; simpl in Hk; try discriminate; simpl;
        apply Members_eq; simpl; try reflexivity;
        try (apply H1; discriminate); try (apply H2; discriminate);
        try (apply H3; discriminate); try (apply H4; discriminate).
    + simpl.
      apply (BitmaskFacts.BitmaskValueBase_skip Initialiser Validator
               SizeToType), Hrec, Hl1.
Qed.

End WithTypes.

(** A second length after an option for the bit order and a first length:
    it is as if it were not there. *)
Lemma BitmaskValueBase_later_option_ignored_witness :
  BitmaskValueBase example_SizeToType
    ([option_BitIndexingStartsFromMsb; option_FixedLength 2]
     ++ option_FixedLength 4 :: [option_ContentsValidator true])
  = BitmaskValueBase (Initialiser:=nat) example_SizeToType
      ([option_BitIndexingStartsFromMsb; option_FixedLength 2]
       ++ [option_ContentsValidator true]).
Proof.
  apply (BitmaskValueBase_later_option_ignored nat bool example_SizeToType
           [option_BitIndexingStartsFromMsb; option_FixedLength 2]
           (option_FixedLength 4) [option_ContentsValidator true]).
  simpl. right. left. reflexivity.
Defined.

End BitmaskMore.

(** ** More of the field wrappers *)

Module WrapperMore.
Import Monad Wrapper.

(** X13. [makeBitfieldWrapper] compiles exactly for a bitfield whose value
    type is narrower than the 8 bytes of the wrapper's representation, or
    as wide and signed; the wrapper it makes refers to the field given.  An
    unsigned value type of 64 bits is not accepted. *)
Theorem makeBitfieldWrapper_accepts :
  forall (TField : FieldClass) (field : nat),
    (exists w, makeBitfieldWrapper TField field = Some w /\
               Wrapper.field w = field)
    <->
    isBitfield TField = true /\
    (sizeof (ValueType TField) < 8 \/
     (sizeof (ValueType TField) = 8 /\ is_signed (ValueType TField) = true)).
Proof.
  intros TField field.
  assert (Hsa : BitfieldWrapperT_static_asserts TField = true <->
                isBitfield TField = true /\
                (sizeof (ValueType TField) < 8 \/
                 (sizeof (ValueType TField) = 8 /\
                  is_signed (ValueType TField) = true))).
  { unfold BitfieldWrapperT_static_asserts, UnderlyingType.
    simpl sizeof.
    rewrite !andb_true_iff, orb_true_iff, Nat.leb_le, Nat.ltb_lt.
    split.
    - intros [[Hb Hle] [Hs|Hlt]]; (split; [assumption|]).
      + destruct (Nat.eq_dec (sizeof (ValueType TField)) 8);
          [right; now split | left; lia].
      + now left.
    - intros [Hb [Hlt|[He Hs]]]; (split; [split; [assumption | lia]|]).
      + now right.
      + now left. }
  unfold makeBitfieldWrapper.
  destruct (bool_dec (BitfieldWrapperT_static_asserts TField) true)
    as [ok|no].
  - split; [intros _; now apply Hsa|].
    intros _. eexists. split; reflexivity.
  - split.
    + intros (w & Hw & _). discriminate.
    + intros H. apply Hsa in H. contradiction.
Qed.

Section Unknown.
Variable env : Env.
Variable V : Type.
Variable ops : Field.Ops V.

(** What a run of [getSerialisedValueImpl] that returns has gone
    through. *)
Lemma getSerialisedValueImpl_inv : forall (field : V) r field',
  getSerialisedValueImpl env ops field = (r, field') ->
  field' = field /\
  forall bs, r = Ret bs ->
    exists es, Field.write ops field (max_size env) = Ret (es, bs).
Proof.
  intros field r field'.
  unfold getSerialisedValueImpl, bind, get, lift, ret.
  destruct (Vec.reserve env (Field.length ops field)) as [cap|e|];
    [|intros H; inversion H; subst; split; [reflexivity | discriminate]..].
  destruct (Field.write ops field (max_size env)) as [[es bs0]|e|];
    [|intros H; inversion H; subst; split; [reflexivity | discriminate]..].
  unfold Vec.push_back_all. simpl app.
  repeat match goal with
         | |- context [if ?c then _ else _] => destruct c
         end;
    intros H; inversion H; subst; (split; [reflexivity|]);
    intros bs Hbs; try discriminate;
    inversion Hbs; subst; now exists es.
Qed.

(** X14. [getSerialisedValueImpl] is [const] and does not look at the
    status of the write: however it ends, the field is as it was, and
    when it returns, it returns the bytes the field's [write] has put
    out, also when that write has reported a failure. *)
Theorem getSerialisedValueImpl_const_ignores_status :
  forall (field field' : V) (r : Outcome SerialisedSeq),
    getSerialisedValueImpl env ops field = (r, field') ->
    field' = field /\
    (forall bs, r = Ret bs ->
       exists es, Field.write ops field (max_size env) = Ret (es, bs)).
Proof.
  intros field field' r Hrun.
  apply (getSerialisedValueImpl_inv field r field' Hrun).
Qed.

(** X15. Round trip through the wrapper, for a field class whose read
    inverts its write: the bytes [getSerialisedValueImpl] returns for a
    value, given to [setSerialisedValueImpl] on a field of the same class,
    put the value into that field, unless there are no bytes: a value
    that serialises to nothing is refused and the field keeps what it
    has. *)
Theorem setSerialisedValueImpl_of_getSerialisedValueImpl :
  forall (v v0 : V) (bs bs' : SerialisedSeq),
    Field.read_inverts_write ops ->
    Field.write ops v (max_size env) = Ret (Success, bs) ->
    fst (getSerialisedValueImpl env ops v) = Ret bs' ->
    bs' = bs /\
    (bs <> [] -> setSerialisedValueImpl ops bs' v0 = (Ret true, v)) /\
    (bs = [] -> setSerialisedValueImpl ops bs' v0 = (Ret false, v0)).
Proof.
  intros v v0 bs bs' Hinv Hw Hget.
  destruct (getSerialisedValueImpl env ops v) as [r v'] eqn:Hrun.
  simpl in Hget. subst r.
  destruct (getSerialisedValueImpl_inv v (Ret bs') v' Hrun) as [_ Hbs].
  destruct (Hbs bs' eq_refl) as [es Hw'].
  assert (bs' = bs) by congruence. subst bs'.
  split; [reflexivity|]. split.
  - intros Hne. destruct bs as [|b bs]; [congruence|].
    unfold setSerialisedValueImpl, bind, ret.
    pose proof (Hinv v v0 (max_size env) (b :: bs) [] Hw) as Hr.
    rewrite app_nil_r in Hr. now rewrite Hr.
  - intros ->. reflexivity.
Qed.

End Unknown.

Lemma uint8_field_read_inverts_write :
  Field.read_inverts_write Field.uint8_field.
Proof.
  intros v v0 maxLen bs rest Hw. simpl in Hw.
  destruct maxLen; inversion Hw; subst. reflexivity.
Qed.

Lemma getSerialisedValueImpl_const_ignores_status_witness :
  getSerialisedValueImpl Message.example_env Field.uint8_field x2a
  = (Ret [x2a], x2a) /\
  exists es,
    Field.write Field.uint8_field x2a (max_size Message.example_env)
    = Ret (es, [x2a]).
Proof.
  split; [reflexivity|].
  apply (proj2 (getSerialisedValueImpl_const_ignores_status
                  Message.example_env byte Field.uint8_field x2a x2a
                  (Ret [x2a]) eq_refl)
           [x2a] eq_refl).
Defined.

Lemma setSerialisedValueImpl_of_getSerialisedValueImpl_witness :
  [x2a] = [x2a] /\
  ([x2a] <> [] ->
   setSerialisedValueImpl Field.uint8_field [x2a] x00 = (Ret true, x2a)) /\
  ([x2a] = [] ->
   setSerialisedValueImpl Field.uint8_field [x2a] x00 = (Ret false, x00)).
Proof.
  apply (setSerialisedValueImpl_of_getSerialisedValueImpl
           Message.example_env byte Field.uint8_field x2a x00 [x2a] [x2a]
           uint8_field_read_inverts_write); reflexivity.
Defined.

(** The write of a list of 256 bytes behind a one byte count reports
    [InvalidMsgData] and puts out nothing: the wrapper returns no bytes,
    and no error. *)
Example getSerialisedValueImpl_failed_write :
  Field.write Field.counted_bytes_field (repeat x00 256)
    (max_size Message.example_env) = Ret (InvalidMsgData, []) /\
  fst (getSerialisedValueImpl Message.example_env Field.counted_bytes_field
         (repeat x00 256)) = Ret [].
Proof. split; vm_compute; reflexivity. Qed.

End WrapperMore.

(** ** More of MessageBase.h *)

Module MessageMore.
Import Monad Message.
Local Open Scope monad_scope.

Lemma CommsBase_write_run : forall size m,
  CommsBase_write size m
  = write_fields 0 (fields m) size (mkMsg (fields m) (trace m ++ [ev_write])).
Proof. reflexivity. Qed.

(** A write of the fields that reports [Success] has written every one of
    them. *)
Lemma write_fields_inv : forall fs idx maxLen m bs m',
  write_fields idx fs maxLen m = (Ret (Success, bs), m') ->
  writes_all fs maxLen bs.
Proof.
  induction fs as [|f rest IH]; intros idx maxLen m bs m' H.
  - simpl in H. inversion H; subst. constructor.
  - cbn [write_fields] in H. unfold bind at 1 2, emit, lift in H.
    destruct (Field.obj_write f maxLen) as [[es1 bs1]|e|] eqn:Hw;
      try discriminate.
    destruct es1; try (inversion H; fail).
    unfold bind in H.
    destruct (write_fields (S idx) rest (maxLen - length bs1)
                (mkMsg (fields m) (trace m ++ [ev_field_write idx])))
      as [[[es2 bs2]|e|] m2] eqn:Hrec; try discriminate.
    inversion H; subst.
    econstructor; [exact Hw | eapply IH; exact Hrec].
Qed.

Lemma write_fields_all : forall fs maxLen bs,
  writes_all fs maxLen bs ->
  forall idx m, fst (write_fields idx fs maxLen m) = Ret (Success, bs).
Proof.
  induction 1 as [maxLen|f rest maxLen bs bs' Hw Hrest IH]; intros idx m.
  - reflexivity.
  - cbn [write_fields]. unfold bind at 1 2, emit, lift. rewrite Hw.
    unfold bind.
    specialize (IH (S idx)
                  (mkMsg (fields m) (trace m ++ [ev_field_write idx]))).
    destruct (write_fields (S idx) rest (maxLen - length bs)
                (mkMsg (fields m) (trace m ++ [ev_field_write idx])))
      as [r m2].
    simpl in IH. subst r. reflexivity.
Qed.

(** Fields that keep the contract of [write] are all written when there
    is room for them, and their bytes are as many as their lengths say. *)
Lemma writes_all_of_contract : forall fs maxLen,
  Forall obj_write_emits_length fs ->
  list_sum (map Field.obj_length fs) <= maxLen ->
  exists bs, writes_all fs maxLen bs /\
             length bs = list_sum (map Field.obj_length fs).
Proof.
  induction fs as [|f rest IH]; intros maxLen Hc Hle.
  - exists []. split; [constructor | reflexivity].
  - inversion Hc as [|? ? Hf Hrest]; subst. simpl in Hle.
    destruct (Hf (Field.value f) maxLen) as (bs & Hw & Hlen).
    { change (Field.obj_length f <= maxLen). lia. }
    change (length bs = Field.obj_length f) in Hlen.
    destruct (IH (maxLen - length bs) Hrest) as (bs' & Hall & Hlen').
    { lia. }
    exists (bs ++ bs'). split.
    + econstructor; [exact Hw | exact Hall].
    + rewrite length_app, Hlen, Hlen'. reflexivity.
Qed.

Lemma CommsBase_write_back_inserter_run : forall env size data m,
  CommsBase_write_back_inserter env size data m
  = write_fields_back_inserter env 0 (fields m) size data
      (mkMsg (fields m) (trace m ++ [ev_write])).
Proof. reflexivity. Qed.


(** Every [push_back] succeeds when every growth of the vector on the way
    does. *)
Lemma push_back_each_ok : forall env bs v,
  length v + length bs <= max_size env ->
  (forall n, length v < n <= length v + length bs ->
             alloc_ok env n = true) ->
  Vec.push_back_each env v bs = Ret (v ++ bs).
Proof.
  intros env. induction bs as [|b bs IH]; intros v Hmax Halloc; simpl.
  - now rewrite app_nil_r.
  - simpl in Hmax, Halloc.
    destruct (Nat.ltb_spec (max_size env) (S (length v))); [lia|].
    rewrite Halloc by lia.
    rewrite IH.
    + now rewrite <- app_assoc.
    + rewrite length_app. simpl. lia.
    + intros n Hn. apply Halloc. rewrite length_app in Hn. simpl in Hn. lia.
Qed.


Lemma write_fields_back_inserter_all : forall env fs maxLen bs,
  writes_all fs maxLen bs ->
  forall idx data m,
    length data + length bs <= max_size env ->
    (forall n, length data < n <= length data + length bs ->
               alloc_ok env n = true) ->
    fst (write_fields_back_inserter env idx fs maxLen data m)
    = Ret (Success, data ++ bs).
Proof.
  intros env.
  induction 1 as [maxLen|f rest maxLen bs bs' Hw Hrest IH];
    intros idx data m Hmax Halloc.
  - simpl. now rewrite app_nil_r.
  - rewrite length_app in Hmax, Halloc.
    cbn [write_fields_back_inserter].
    unfold bind at 1 2, emit, lift at 1. rewrite Hw.
    unfold bind at 1, lift.
    rewrite push_back_each_ok; [| lia | intros n Hn; apply Halloc; lia].
    rewrite IH.
    + now rewrite app_assoc.
    + rewrite length_app. lia.
    + intros n Hn. apply Halloc. rewrite length_app in Hn. lia.
Qed.

Lemma resize_nil_length : forall env n data,
  Vec.resize env [] n = Ret data -> length data = n.
Proof.
  intros env n data. unfold Vec.resize. simpl length.
  destruct (Nat.leb_spec n 0) as [Hn|Hn].
  - intros Hr. inversion Hr; subst. assert (n = 0) by lia. now subst.
  - destruct (max_size env <? n); [discriminate|].
    destruct (alloc_ok env n); [|discriminate].
    intros Hr. inversion Hr; subst. simpl.
    rewrite repeat_length. lia.
Qed.

Section WithEnv.
Variable env : Env.

(** X16. The random access path is all or nothing: what
    [encodeDataRandomAccess] returns is either no byte at all or the bytes
    of a write in which every field has reported [Success], with the
    length of the message as room. *)
Theorem encodeDataRandomAccess_all_or_nothing :
  forall (m m' : Msg) (bs : DataSeq),
    encodeDataRandomAccess env m = (Ret bs, m') ->
    bs = [] \/
    writes_all (fields m) (list_sum (map Field.obj_length (fields m))) bs.
Proof.
  intros m m' bs.
  unfold encodeDataRandomAccess, encodeDataRandomAccess_body, try_catch,
    bind.
  rewrite MessageFacts.CommsBase_length_run. unfold lift at 1.
  destruct (Vec.resize env [] (list_sum (map Field.obj_length (fields m))))
    as [data|e|] eqn:Hres.
  - rewrite CommsBase_write_run. cbn [fields trace].
    destruct (write_fields 0 (fields m) (length data)
                (mkMsg (fields m) ((trace m ++ [ev_length]) ++ [ev_write])))
      as [[[es bs1]|e|] m2] eqn:Hwr.
    + destruct es; simpl negb; cbv iota;
        try (unfold assert; destruct (NDEBUG env); simpl;
             intros H; inversion H; now left).
      unfold lift. rewrite MessageFacts.resize_store.
      intros H. inversion H; subst. right.
      rewrite <- (resize_nil_length env _ data Hres).
      eapply write_fields_inv; exact Hwr.
    + intros H. inversion H. now left.
    + discriminate.
  - intros H. inversion H. now left.
  - discriminate.
Qed.


(** X18. For fields that keep the contract of [write], and when the
    vector can grow to the length of the message (no more than [max_size],
    and memory at every size on the way, as the back inserter pushes the
    bytes while the fields write), encoding returns, on either path,
    exactly as many bytes as the lengths of the fields add up to: the
    bytes of a write of every field. *)
Theorem encodeDataImpl_emits_length :
  forall (WriteIterator : WriteIteratorType) (m : Msg),
    Forall obj_write_emits_length (fields m) ->
    list_sum (map Field.obj_length (fields m)) <= max_size env ->
    (forall n, 0 < n <= list_sum (map Field.obj_length (fields m)) ->
               alloc_ok env n = true) ->
    exists bs maxLen,
      fst (encodeDataImpl_with env WriteIterator m) = Ret bs /\
      writes_all (fields m) maxLen bs /\
      length bs = list_sum (map Field.obj_length (fields m)).
Proof.
  intros WriteIterator m Hc Hmax Halloc.
  set (len := list_sum (map Field.obj_length (fields m))) in *.
  destruct WriteIterator.
  - (* random access *)
    destruct (writes_all_of_contract (fields m) len Hc (Nat.le_refl _))
      as (bs & Hall & Hlen).
    exists bs, len. split; [|split; assumption].
    assert (Hres : exists data, Vec.resize env [] len = Ret data).
    { unfold Vec.resize. simpl length.
      destruct (Nat.leb_spec len 0); [eexists; reflexivity|].
      destruct (Nat.ltb_spec (max_size env) len); [lia|].
      rewrite Halloc by lia. eexists; reflexivity. }
    destruct Hres as [data Hres].
    pose proof (resize_nil_length env len data Hres) as Hdl.
    pose proof (write_fields_all (fields m) len bs Hall 0
                  (mkMsg (fields m) ((trace m ++ [ev_length]) ++ [ev_write])))
      as Hwr.
    destruct (write_fields 0 (fields m) len
                (mkMsg (fields m) ((trace m ++ [ev_length]) ++ [ev_write])))
      as [r m2] eqn:Hrun.
    simpl in Hwr. subst r.
    unfold encodeDataImpl_with, encodeDataIntenal.
    rewrite (MessageFacts.encodeDataRandomAccess_success env m len
               (mkMsg (fields m) (trace m ++ [ev_length])) data bs m2).
    + reflexivity.
    + apply MessageFacts.CommsBase_length_run.
    + exact Hres.
    + rewrite CommsBase_write_run, Hdl. exact Hrun.
  - (* back inserter *)
    destruct (writes_all_of_contract (fields m) (max_size env) Hc Hmax)
      as (bs & Hall & Hlen).
    exists bs, (max_size env). split; [|split; assumption].
    pose proof (write_fields_back_inserter_all env (fields m) (max_size env)
                  bs Hall 0 [] (mkMsg (fields m) (trace m ++ [ev_write])))
      as Hwr.
    simpl length in Hwr. simpl app in Hwr. rewrite Hlen in Hwr.
    specialize (Hwr Hmax Halloc).
    destruct (write_fields_back_inserter env 0 (fields m) (max_size env) []
                (mkMsg (fields m) (trace m ++ [ev_write])))
      as [r m2] eqn:Hrun.
    simpl in Hwr. subst r.
    unfold encodeDataImpl_with, encodeDataIntenal.
    rewrite (MessageFacts.encodeDataWithOutputIter_success env m bs m2).
    + reflexivity.
    + rewrite CommsBase_write_back_inserter_run. exact Hrun.
Qed.

End WithEnv.



Lemma uint8_obj_contracts : forall v,
  obj_write_emits_length (Field.mkObj Field.uint8_field v) /\
  obj_read_inverts_write (Field.mkObj Field.uint8_field v).
Proof.
  intros v. split.
  - apply WrapperFacts.uint8_field_write_emits_length.
  - apply WrapperMore.uint8_field_read_inverts_write.
Qed.

Lemma encodeDataRandomAccess_all_or_nothing_witness :
  [x01; x02] = [] \/
  writes_all (fields two_bytes_msg)
    (list_sum (map Field.obj_length (fields two_bytes_msg))) [x01; x02].
Proof.
  apply (encodeDataRandomAccess_all_or_nothing example_env two_bytes_msg
           (snd (encodeDataRandomAccess example_env two_bytes_msg))
           [x01; x02]).
  reflexivity.
Defined.


Lemma encodeDataImpl_emits_length_witness :
  exists bs maxLen,
    fst (encodeDataImpl_with example_env random_access_iterator
           two_bytes_msg) = Ret bs /\
    writes_all (fields two_bytes_msg) maxLen bs /\
    length bs = list_sum (map Field.obj_length (fields two_bytes_msg)).
Proof.
  apply (encodeDataImpl_emits_length example_env random_access_iterator
           two_bytes_msg).
  - repeat constructor; apply uint8_obj_contracts.
  - simpl. lia.
  - reflexivity.
Defined.


(** Memory for the whole message is not enough for the back inserter:
    where a vector of two bytes can be had and no other, the random access
    path returns the two bytes, and on the path [encodeDataImpl] takes the
    first [push_back] throws. *)
Example encodeDataImpl_first_push_back_throws :
  alloc_ok example_env_two_only
    (list_sum (map Field.obj_length (fields two_bytes_msg))) = true /\
  fst (encodeDataRandomAccess example_env_two_only two_bytes_msg)
  = Ret [x01; x02] /\
  fst (encodeDataImpl example_env_two_only two_bytes_msg)
  = Throw bad_alloc.
Proof. repeat split. Qed.

End MessageMore.

(** ** Plugin.cpp *)

Module PluginFacts.
Import Monad Plugin.

Section WithDerived.
Variable env : Env.
Variable Derived QVariantMap Widget : Type.
Variable vt : VTable Derived QVariantMap Widget.

(** X20. After [apply] on a plugin that has not been applied, for a class
    whose [applyImpl] returns and leaves the pointer alone, the plugin is
    applied and [ctrlInterface] gives the interface that was passed; no
    assertion fails on the way, in either kind of build. *)
Theorem apply_then_ctrlInterface :
  forall (controlInterface : nat) (p : Plugin Derived),
    m_ctrlInterface p = None ->
    applyImpl_keeps_interface vt ->
    exists p',
      apply env vt controlInterface p = (Ret tt, p') /\
      isApplied p' = (Ret true, p') /\
      ctrlInterface env p' = (Ret (Some controlInterface), p').
Proof.
  intros ci p Hnull Hkeep.
  destruct (Hkeep (mkPlugin (Some ci) (derived p))) as (p' & Hrun & Hptr).
  simpl in Hptr.
  exists p'. split; [|split].
  - unfold apply, isApplied, bind, get, put, ret, assert.
    rewrite Hnull. simpl negb. rewrite orb_true_r. exact Hrun.
  - unfold isApplied, bind, get, ret. now rewrite Hptr.
  - unfold ctrlInterface, isApplied, bind, get, ret, assert.
    rewrite Hptr, orb_true_r. simpl. now rewrite Hptr.
Qed.

(** X21. The two assertions.  [apply] on a plugin that is applied already
    aborts in a build with assertions, before it has changed anything or
    called [applyImpl]; with [NDEBUG] it points the plugin to the new
    interface and calls [applyImpl] again.  [ctrlInterface] on a plugin
    that is not applied aborts in a build with assertions; with [NDEBUG]
    it goes on to take the reference from the null pointer. *)
Theorem apply_and_ctrlInterface_assert :
  forall (controlInterface : nat) (p : Plugin Derived),
    (forall old,
       m_ctrlInterface p = Some old ->
       apply env vt controlInterface p
       = if NDEBUG env
         then applyImpl vt (mkPlugin (Some controlInterface) (derived p))
         else (Abort, p)) /\
    (m_ctrlInterface p = None ->
     ctrlInterface env p
     = if NDEBUG env then (Ret None, p) else (Abort, p)).
Proof.
  intros ci p. split.
  - intros old Hold.
    unfold apply, isApplied, bind, get, put, ret, assert.
    rewrite Hold. simpl negb. rewrite orb_false_r.
    destruct (NDEBUG env); reflexivity.
  - intros Hnull.
    unfold ctrlInterface, isApplied, bind, get, ret, assert.
    rewrite Hnull, orb_false_r.
    destruct (NDEBUG env); [|reflexivity].
    simpl. now rewrite Hnull.
Qed.

End WithDerived.

(** A class that overrides none of the configuration functions keeps no
    configuration: whatever it is reconfigured with, the plugin stays as
    it is, its current configuration is the empty map, a map handed in
    comes back as it was, and there is no widget. *)
Lemma base_plugin_keeps_no_configuration :
  forall (Derived QVariantMap Widget : Type) (empty_map : QVariantMap)
         (applyImpl : M (Plugin Derived) unit)
         (config : QVariantMap) (p : Plugin Derived),
    reconfigure (base_vtable QVariantMap Widget applyImpl) config p
    = (Ret tt, p) /\
    getCurrentConfig empty_map (base_vtable QVariantMap Widget applyImpl) p
    = (Ret empty_map, p) /\
    getCurrentConfig_into (base_vtable QVariantMap Widget applyImpl) config p
    = (Ret config, p) /\
    getConfigWidget (base_vtable QVariantMap Widget applyImpl) p
    = (Ret None, p).
Proof.
  intros. repeat split.
Qed.

Lemma counting_vtable_keeps_interface :
  applyImpl_keeps_interface counting_vtable.
Proof.
  intros p. eexists. split; reflexivity.
Qed.

Lemma apply_then_ctrlInterface_witness :
  exists p',
    apply Message.example_env_debug counting_vtable 7 (mkPlugin None 0)
    = (Ret tt, p') /\
    isApplied p' = (Ret true, p') /\
    ctrlInterface Message.example_env_debug p' = (Ret (Some 7), p').
Proof.
  apply (apply_then_ctrlInterface Message.example_env_debug nat unit unit
           counting_vtable 7 (mkPlugin None 0) eq_refl
           counting_vtable_keeps_interface).
Defined.

(** A second [apply] in a build with assertions. *)
Lemma apply_and_ctrlInterface_assert_witness :
  apply Message.example_env_debug counting_vtable 8 (mkPlugin (Some 7) 1)
  = (Abort, mkPlugin (Some 7) 1).
Proof.
  apply (proj1 (apply_and_ctrlInterface_assert Message.example_env_debug
                  nat unit unit counting_vtable 8 (mkPlugin (Some 7) 1))
           7 eq_refl).
Defined.

(** The same with [NDEBUG]: the plugin now points to the second
    interface, and [applyImpl] has run once more. *)
Example apply_twice_NDEBUG :
  apply Message.example_env counting_vtable 8 (mkPlugin (Some 7) 1)
  = (Ret tt, mkPlugin (Some 8) 2).
Proof. reflexivity. Qed.

End PluginFacts.
